(** * A playing-card deck: shallow embedding of [card.go] and [deck.go]

    The Go package [deck] is embedded as follows.

    - [Suit] and [Rank] are Go [int] types; they are integers here, so that
      values outside the named constants (such as the rank [0] of the zero
      card) exist exactly as they do in Go.
    - A [Deck] owns one slice of cards.  No method hands that slice out
      ([Cards], [PeekN], [DealN], [NewDeckFromCards] and [Filter] all go
      through [make] and [copy]), so a deck is modelled by the contents of
      its slice, a [list Card]; [make], [copy], [append], indexing and
      reslicing are modelled on contents.
    - Methods with a pointer receiver are state transformers on the deck.
      Indexing and reslicing panic out of range, and a [for] loop is run
      with fuel, so a method returns an [outcome].
    - Every integer the package computes lies between [-1] and
      [len(d.cards) + 1]; it is modelled in [Z] without wrap-around.
    - [math/rand] and the clock are not part of the package: the generator
      is an interface ([RandSource]) and the clock reading an argument. *)

From Stdlib Require Import ZArith Lia.
From stdpp Require Import base decidable list strings gmap fin_maps sorting.

Local Open Scope Z_scope.

(** ** card.go *)

Abbreviation Suit := Z.

Definition Spades : Suit := 0.
Definition Hearts : Suit := 1.
Definition Diamonds : Suit := 2.
Definition Clubs : Suit := 3.

Definition Suit_String (s : Suit) : string :=
  if decide (s = Spades) then "Spades"
  else if decide (s = Hearts) then "Hearts"
  else if decide (s = Diamonds) then "Diamonds"
  else if decide (s = Clubs) then "Clubs"
  else "Unknown".

Abbreviation Rank := Z.

Definition Ace : Rank := 1.
Definition Two : Rank := 2.
Definition Three : Rank := 3.
Definition Four : Rank := 4.
Definition Five : Rank := 5.
Definition Six : Rank := 6.
Definition Seven : Rank := 7.
Definition Eight : Rank := 8.
Definition Nine : Rank := 9.
Definition Ten : Rank := 10.
Definition Jack : Rank := 11.
Definition Queen : Rank := 12.
Definition King : Rank := 13.

Definition Rank_String (r : Rank) : string :=
  if decide (r = Ace) then "Ace"
  else if decide (r = Two) then "Two"
  else if decide (r = Three) then "Three"
  else if decide (r = Four) then "Four"
  else if decide (r = Five) then "Five"
  else if decide (r = Six) then "Six"
  else if decide (r = Seven) then "Seven"
  else if decide (r = Eight) then "Eight"
  else if decide (r = Nine) then "Nine"
  else if decide (r = Ten) then "Ten"
  else if decide (r = Jack) then "Jack"
  else if decide (r = Queen) then "Queen"
  else if decide (r = King) then "King"
  else "Unknown".

Definition Rank_Symbol (r : Rank) : string :=
  if decide (r = Ace) then "A"
  else if decide (r = Two) then "2"
  else if decide (r = Three) then "3"
  else if decide (r = Four) then "4"
  else if decide (r = Five) then "5"
  else if decide (r = Six) then "6"
  else if decide (r = Seven) then "7"
  else if decide (r = Eight) then "8"
  else if decide (r = Nine) then "9"
  else if decide (r = Ten) then "10"
  else if decide (r = Jack) then "J"
  else if decide (r = Queen) then "Q"
  else if decide (r = King) then "K"
  else "?".

Record Card : Type := mkCard { card_Suit : Suit; card_Rank : Rank }.

#[global] Instance Card_eq_dec : EqDecision Card.
Proof. solve_decision. Defined.

Definition NewCard (suit : Suit) (rank : Rank) : Card :=
  {| card_Suit := suit; card_Rank := rank |}.

(** [Card{}]: every field holds the zero value of its type. *)
Definition zeroCard : Card := {| card_Suit := 0; card_Rank := 0 |}.

Definition Card_String (c : Card) : string :=
  Rank_String (card_Rank c) +:+ " of " +:+ Suit_String (card_Suit c).

(** The suit symbols are the UTF-8 encodings of U+2660, U+2665, U+2666 and
    U+2663, three bytes each. *)
Definition Suit_Symbol (s : Suit) : string :=
  if decide (s = Spades) then "♠"
  else if decide (s = Hearts) then "♥"
  else if decide (s = Diamonds) then "♦"
  else if decide (s = Clubs) then "♣"
  else "?".

Definition Card_ShortString (c : Card) : string :=
  Rank_Symbol (card_Rank c) +:+ Suit_Symbol (card_Suit c).

Definition IsRed (c : Card) : bool :=
  bool_decide (card_Suit c = Hearts) || bool_decide (card_Suit c = Diamonds).

Definition IsBlack (c : Card) : bool :=
  bool_decide (card_Suit c = Spades) || bool_decide (card_Suit c = Clubs).

Definition IsFaceCard (c : Card) : bool :=
  bool_decide (card_Rank c = Jack) || bool_decide (card_Rank c = Queen)
  || bool_decide (card_Rank c = King).

(** ** Outcomes of running a method *)

Inductive outcome (A : Type) : Type :=
  | Done (a : A)          (* normal return *)
  | Panic (msg : string)  (* Go run-time panic *)
  | Timeout.              (* the loop fuel of the model ran out *)
Arguments Done {A} a.
Arguments Panic {A} msg.
Arguments Timeout {A}.

Definition obind {A B} (o : outcome A) (k : A -> outcome B) : outcome B :=
  match o with
  | Done a => k a
  | Panic msg => Panic msg
  | Timeout => Timeout
  end.

(** ** Slices of cards, by contents *)

Definition len (s : list Card) : Z := Z.of_nat (length s).

(** [s[i]] *)
Definition index (s : list Card) (i : Z) : outcome Card :=
  if decide (0 <= i < len s) then
    match s !! Z.to_nat i with
    | Some c => Done c
    | None => Panic "index out of range"
    end
  else Panic "index out of range".

(** [s[i] = c] *)
Definition store (s : list Card) (i : Z) (c : Card) : outcome (list Card) :=
  if decide (0 <= i < len s) then Done (<[Z.to_nat i := c]> s)
  else Panic "index out of range".

(** [s[:n]]; Go checks [n] against the capacity, the model against the
    length, which every use below has already checked. *)
Definition slice_to (s : list Card) (n : Z) : outcome (list Card) :=
  if decide (0 <= n <= len s) then Done (take (Z.to_nat n) s)
  else Panic "slice bounds out of range".

(** [s[n:]] *)
Definition slice_from (s : list Card) (n : Z) : outcome (list Card) :=
  if decide (0 <= n <= len s) then Done (drop (Z.to_nat n) s)
  else Panic "slice bounds out of range".

(** [make([]Card, n)] *)
Definition make (n : Z) : outcome (list Card) :=
  if decide (0 <= n) then Done (replicate (Z.to_nat n) zeroCard)
  else Panic "makeslice: len out of range".

(** [copy(dst, src)]: the new contents of [dst]. *)
Definition copy (dst src : list Card) : list Card :=
  let n := Nat.min (length dst) (length src) in
  take n src ++ drop n dst.

(** [append(s, c)] *)
Definition append (s : list Card) (c : Card) : list Card := s ++ [c].

(** ** deck.go *)

Record Deck : Type := mkDeck { cards : list Card }.

(** The [error] interface: [nil] or a value made by [errors.New]. *)
Definition error : Type := option string.
Definition nil : error := None.
Definition errors_New (msg : string) : error := Some msg.

(** A method body: it may read and assign [d.cards], return or panic. *)
Definition M (A : Type) : Type := Deck -> outcome (A * Deck).

Definition ret {A} (a : A) : M A := fun d => Done (a, d).

Definition bind {A B} (m : M A) (k : A -> M B) : M B :=
  fun d => obind (m d) (fun r => k (fst r) (snd r)).

Definition lift {A} (o : outcome A) : M A :=
  fun d => obind o (fun a => Done (a, d)).

Definition get : M Deck := fun d => Done (d, d).

Definition get_cards : M (list Card) := fun d => Done (cards d, d).

Definition set_cards (cs : list Card) : M unit :=
  fun _ => Done (tt, {| cards := cs |}).

Declare Scope go_scope.
Delimit Scope go_scope with go.
Notation "'let*' x ':=' m 'in' k" := (bind m (fun x => k))
  (at level 10, x pattern, m at level 100, k at level 200) : go_scope.
Notation "m ';;' k" := (bind m (fun _ => k))
  (at level 100, k at level 200, right associativity) : go_scope.

(** [for ; cond; { body }] over loop variables [v]; the post statement is
    part of [body]. *)
Fixpoint for_loop {V} (fuel : nat) (cond : V -> M bool) (body : V -> M V)
    (v : V) : M V :=
  match fuel with
  | O => fun _ => Timeout
  | S fuel' =>
      (let* c := cond v in
       if c : bool then
         let* v' := body v in
         for_loop fuel' cond body v'
       else ret v)%go
  end.

Definition suits : list Suit := [Spades; Hearts; Diamonds; Clubs].

Definition ranks : list Rank :=
  [Ace; Two; Three; Four; Five; Six; Seven; Eight; Nine; Ten; Jack; Queen;
   King].

Definition NewDeck : Deck :=
  {| cards :=
       fold_left
         (fun cs suit =>
            fold_left (fun cs rank => append cs (NewCard suit rank)) ranks cs)
         suits [] |}.

Definition NewEmptyDeck : Deck := {| cards := [] |}.

Definition NewDeckFromCards (cs : list Card) : outcome Deck :=
  obind (make (len cs)) (fun deckCards =>
  Done {| cards := copy deckCards cs |}).

Definition Size (d : Deck) : Z := len (cards d).

Definition IsEmpty (d : Deck) : bool := bool_decide (len (cards d) = 0).

Definition Cards (d : Deck) : outcome (list Card) :=
  obind (make (len (cards d))) (fun cs => Done (copy cs (cards d))).

(** [math/rand] as used by this package: [rand.New(rand.NewSource(seed))]
    and, for [0 < n], the value of [r.Intn(n)] with the advanced generator. *)
Class RandSource : Type := {
  Rand : Type;
  rand_New : Z -> Rand;
  Intn_next : Rand -> Z -> Z * Rand
}.

(** [r.Intn(n)]; it panics for [n <= 0]. *)
Definition rand_Intn `{RandSource} (r : Rand) (n : Z) : outcome (Z * Rand) :=
  if decide (n <= 0) then Panic "invalid argument to Intn"
  else Done (Intn_next r n).

(** [d.cards[i], d.cards[j] = d.cards[j], d.cards[i]]: both right-hand
    operands are read, then the two stores happen left to right. *)
Definition swap (i j : Z) : M unit :=
  (let* cs := get_cards in
   let* x := lift (index cs j) in
   let* y := lift (index cs i) in
   let* cs1 := lift (store cs i x) in
   let* cs2 := lift (store cs1 j y) in
   set_cards cs2)%go.

(** [now] is the value of [time.Now().UnixNano()]; the generator [r] is
    advanced by every draw, so it travels with the loop variable. *)
Definition Shuffle `{RandSource} (now : Z) : M unit :=
  (let r := rand_New now in
   let* cs := get_cards in
   for_loop (S (length cs))
     (fun '(i, _) => ret (bool_decide (i > 0)))
     (fun '(i, r) =>
        let* (j, r') := lift (rand_Intn r (i + 1)) in
        swap i j ;;
        ret (i - 1, r'))
     (len cs - 1, r) ;;
   ret tt)%go.

Definition ShuffleWithSeed `{RandSource} (seed : Z) : M unit :=
  (let r := rand_New seed in
   let* cs := get_cards in
   for_loop (S (length cs))
     (fun '(i, _) => ret (bool_decide (i > 0)))
     (fun '(i, r) =>
        let* (j, r') := lift (rand_Intn r (i + 1)) in
        swap i j ;;
        ret (i - 1, r'))
     (len cs - 1, r) ;;
   ret tt)%go.

Definition Deal : M (Card * error) :=
  (let* d := get in
   if IsEmpty d then
     ret (zeroCard, errors_New "cannot deal from empty deck")
   else
     let* card := lift (index (cards d) 0) in
     let* rest := lift (slice_from (cards d) 1) in
     set_cards rest ;;
     ret (card, nil))%go.

(** A [nil] slice has no elements. *)
Definition nil_slice : list Card := [].

Definition DealN (n : Z) : M (list Card * error) :=
  (let* cs := get_cards in
   if decide (n < 0) then
     ret (nil_slice, errors_New "cannot deal negative number of cards")
   else if decide (n > len cs) then
     ret (nil_slice, errors_New "not enough cards in deck")
   else
     let* buf := lift (make n) in
     let* top := lift (slice_to cs n) in
     let* rest := lift (slice_from cs n) in
     set_cards rest ;;
     ret (copy buf top, nil))%go.

Definition AddCard (card : Card) : M unit :=
  (let* cs := get_cards in set_cards (append cs card))%go.

Definition AddCards (new : list Card) : M unit :=
  (let* cs := get_cards in set_cards (cs ++ new))%go.

Definition InsertCard (card : Card) (position : Z) : M error :=
  (let* cs := get_cards in
   if decide (position < 0 \/ position > len cs) then
     ret (errors_New "invalid position")
   else
     let cs1 := append cs zeroCard in
     let* dst := lift (slice_from cs1 (position + 1)) in
     let* src := lift (slice_from cs1 position) in
     let cs2 := take (Z.to_nat (position + 1)) cs1 ++ copy dst src in
     let* cs3 := lift (store cs2 position card) in
     set_cards cs3 ;;
     ret nil)%go.

Definition Peek : M (Card * error) :=
  (let* d := get in
   if IsEmpty d then
     ret (zeroCard, errors_New "cannot peek at empty deck")
   else
     let* card := lift (index (cards d) 0) in
     ret (card, nil))%go.

Definition PeekN (n : Z) : M (list Card * error) :=
  (let* cs := get_cards in
   if decide (n < 0) then
     ret (nil_slice, errors_New "cannot peek at negative number of cards")
   else if decide (n > len cs) then
     ret (nil_slice, errors_New "not enough cards in deck")
   else
     let* buf := lift (make n) in
     let* top := lift (slice_to cs n) in
     ret (copy buf top, nil))%go.

Definition Contains (card : Card) (d : Deck) : bool :=
  existsb
    (fun c =>
       bool_decide (card_Suit c = card_Suit card)
       && bool_decide (card_Rank c = card_Rank card))
    (cards d).

(** [counts[k]++] on a Go map: a missing key reads as [0]. *)
Definition incr (k : Z) (counts : gmap Z Z) : gmap Z Z :=
  <[k := default 0 (counts !! k) + 1]> counts.

Definition CountBySuit (d : Deck) : gmap Z Z :=
  fold_left (fun counts card => incr (card_Suit card) counts) (cards d) ∅.

Definition CountByRank (d : Deck) : gmap Z Z :=
  fold_left (fun counts card => incr (card_Rank card) counts) (cards d) ∅.

Definition Filter (predicate : Card -> bool) : M Deck :=
  (let* cs := get_cards in
   let filtered :=
     fold_left
       (fun filtered card =>
          if predicate card then append filtered card else filtered)
       cs nil_slice in
   lift (NewDeckFromCards filtered))%go.

(** The test of the inner [if] of [Sort]. *)
Definition out_of_order (card1 card2 : Card) : bool :=
  bool_decide (card_Suit card1 > card_Suit card2)
  || (bool_decide (card_Suit card1 = card_Suit card2)
      && bool_decide (card_Rank card1 > card_Rank card2)).

Definition Sort_inner (fuel : nat) (i : Z) : M Z :=
  for_loop fuel
    (fun j => let* cs := get_cards in ret (bool_decide (j < len cs - i - 1)))%go
    (fun j =>
       let* cs := get_cards in
       let* card1 := lift (index cs j) in
       let* card2 := lift (index cs (j + 1)) in
       (if out_of_order card1 card2 then swap j (j + 1) else ret tt) ;;
       ret (j + 1))%go
    0.

Definition Sort : M unit :=
  (let* cs0 := get_cards in
   let fuel := S (length cs0) in
   for_loop fuel
     (fun i => let* cs := get_cards in ret (bool_decide (i < len cs - 1)))
     (fun i => Sort_inner fuel i ;; ret (i + 1))
     0 ;;
   ret tt)%go.

(** The [range] loop of [RemoveCard] over the cards [rest] from index [i] on.
    On a match, [append(d.cards[:i], d.cards[i+1:]...)] moves the cards
    behind [i] one place to the front within the deck's own array and the
    method returns at once. *)
Fixpoint RemoveCard_range (card : Card) (i : Z) (rest : list Card) : M bool :=
  match rest with
  | [] => ret false
  | c :: rest' =>
      if bool_decide (card_Suit c = card_Suit card)
         && bool_decide (card_Rank c = card_Rank card)
      then
        (let* cs := get_cards in
         let* front := lift (slice_to cs i) in
         let* back := lift (slice_from cs (i + 1)) in
         set_cards (front ++ back) ;;
         ret true)%go
      else RemoveCard_range card (i + 1) rest'
  end.

Definition RemoveCard (card : Card) : M bool :=
  (let* cs := get_cards in RemoveCard_range card 0 cs)%go.



(** ** Vocabulary of the properties *)

(** Suit first, ties broken by rank. *)
Definition card_le (c1 c2 : Card) : Prop :=
  card_Suit c1 < card_Suit c2
  \/ (card_Suit c1 = card_Suit c2 /\ card_Rank c1 <= card_Rank c2).

#[global] Instance card_le_dec : RelDecision card_le.
Proof. intros c1 c2. unfold card_le. apply _. Defined.

(** The number of cards of [cs] accepted by [p]. *)
Fixpoint count_matching (p : Card -> bool) (cs : list Card) : nat :=
  match cs with
  | [] => 0
  | c :: cs' => (if p c then 1 else 0) + count_matching p cs'
  end.

(** The sum of the values of a map of counts. *)
Definition sum_values (m : gmap Z Z) : Z :=
  map_fold (fun _ v acc => v + acc) 0 m.

(** One pass of the inner loop of [Sort], on contents: [k]
    compare-and-swap steps on neighbours, from the front. *)
Fixpoint bubble (k : nat) (cs : list Card) : list Card :=
  match k, cs with
  | S k', a :: b :: rest =>
      if out_of_order a b then b :: bubble k' (a :: rest)
      else a :: bubble k' (b :: rest)
  | _, _ => cs
  end.

(** The loop that [Shuffle] and [ShuffleWithSeed] both run, from the
    generator [r]. *)
Definition shuffle_loop `{RandSource} (r : Rand) : M unit :=
  (let* cs := get_cards in
   for_loop (S (length cs))
     (fun '(i, _) => ret (bool_decide (i > 0)))
     (fun '(i, r) =>
        let* (j, r') := lift (rand_Intn r (i + 1)) in
        swap i j ;;
        ret (i - 1, r'))
     (len cs - 1, r) ;;
   ret tt)%go.

(** A generator for examples: a linear congruential generator. *)
Definition lcg : RandSource :=
  {| Rand := Z;
     rand_New := fun seed => seed mod 2 ^ 64;
     Intn_next := fun r n =>
       (r mod n,
        (r * 6364136223846793005 + 1442695040888963407) mod 2 ^ 64) |}.

(** A generator that replays a given sequence of draws (reduced into range),
    then draws [0]. *)
Definition replay : RandSource :=
  {| Rand := list Z;
     rand_New := fun _ => [];
     Intn_next := fun r n => (hd 0 r mod n, tl r) |}.

(** The generator that starts, whatever the seed, with the draws [draws]
    left to replay. *)
Definition replay_from (draws : list Z) : RandSource :=
  {| Rand := list Z;
     rand_New := fun _ => draws;
     Intn_next := fun r n => (hd 0 r mod n, tl r) |}.

(** The number of copies of [card] in [cs]. *)
Definition copies (card : Card) (cs : list Card) : nat :=
  count_matching (fun c => bool_decide (c = card)) cs.

(** A card with one of the four suits and one of the thirteen ranks. *)
Definition standard (c : Card) : Prop :=
  card_Suit c ∈ suits /\ card_Rank c ∈ ranks.

(** The outcome [o] with every card of the final deck relabelled by [f]. *)
Definition relabel {A} (f : Card -> Card) (o : outcome (A * Deck))
    : outcome (A * Deck) :=
  obind o (fun r => Done (fst r, {| cards := map f (cards (snd r)) |})).

(** * Properties *)

(** ** Slices *)

Lemma len_nonneg (s : list Card) : 0 <= len s.
Proof. unfold len. lia. Qed.

Lemma len_cons (c : Card) (s : list Card) : len (c :: s) = len s + 1.
Proof. unfold len. simpl. lia. Qed.

Lemma len_app (s t : list Card) : len (s ++ t) = len s + len t.
Proof. unfold len. rewrite length_app. lia. Qed.

Lemma len_insert (s : list Card) (i : nat) (c : Card) :
  len (<[i := c]> s) = len s.
Proof. unfold len. by rewrite length_insert. Qed.

Lemma index_Done (s : list Card) (i : nat) (c : Card) :
  s !! i = Some c -> index s (Z.of_nat i) = Done c.
Proof.
  intros Hi. unfold index, len.
  pose proof (lookup_lt_Some _ _ _ Hi).
  rewrite decide_True by lia. by rewrite Nat2Z.id, Hi.
Qed.

Lemma index_inv (s : list Card) (i : Z) (c : Card) :
  index s i = Done c -> 0 <= i < len s /\ s !! Z.to_nat i = Some c.
Proof.
  unfold index. case_decide; [|done].
  destruct (s !! Z.to_nat i) eqn:E; [|done]. by intros [= ->].
Qed.

Lemma store_Done (s : list Card) (i : nat) (c : Card) :
  (i < length s)%nat -> store s (Z.of_nat i) c = Done (<[i := c]> s).
Proof.
  intros Hi. unfold store, len. rewrite decide_True by lia.
  by rewrite Nat2Z.id.
Qed.

Lemma slice_to_Done (s : list Card) (n : Z) :
  0 <= n <= len s -> slice_to s n = Done (take (Z.to_nat n) s).
Proof. intros Hn. unfold slice_to. by rewrite decide_True. Qed.

Lemma slice_from_Done (s : list Card) (n : Z) :
  0 <= n <= len s -> slice_from s n = Done (drop (Z.to_nat n) s).
Proof. intros Hn. unfold slice_from. by rewrite decide_True. Qed.

Lemma make_Done (n : Z) :
  0 <= n -> make n = Done (replicate (Z.to_nat n) zeroCard).
Proof. intros Hn. unfold make. by rewrite decide_True. Qed.

(** Copying into a destination of the same length gives the source. *)
Lemma copy_same_length (dst src : list Card) :
  length dst = length src -> copy dst src = src.
Proof.
  intros Hl. unfold copy. rewrite Hl, Nat.min_id.
  rewrite firstn_all. rewrite <- Hl, drop_all. apply app_nil_r.
Qed.

Lemma make_copy (src : list Card) :
  obind (make (len src)) (fun buf => Done (copy buf src)) = Done src.
Proof.
  rewrite make_Done by apply len_nonneg. simpl. f_equal.
  apply copy_same_length. unfold len.
  by rewrite length_replicate, Nat2Z.id.
Qed.

Lemma NewDeckFromCards_Done (cs : list Card) :
  NewDeckFromCards cs = Done {| cards := cs |}.
Proof.
  unfold NewDeckFromCards. rewrite make_Done by apply len_nonneg. simpl.
  do 2 f_equal. apply copy_same_length. unfold len.
  by rewrite length_replicate, Nat2Z.id.
Qed.

Lemma Cards_Done (d : Deck) : Cards d = Done (cards d).
Proof. apply make_copy. Qed.

(** The first [n] cards, through [make], [s[:n]] and [copy]. *)
Lemma copy_make_take (s : list Card) (n : Z) :
  0 <= n <= len s ->
  copy (replicate (Z.to_nat n) zeroCard) (take (Z.to_nat n) s)
  = take (Z.to_nat n) s.
Proof.
  intros Hn. apply copy_same_length.
  rewrite length_replicate, length_take. unfold len in Hn. lia.
Qed.

Lemma IsEmpty_nil : IsEmpty {| cards := [] |} = true.
Proof. reflexivity. Qed.

Lemma IsEmpty_cons (c : Card) (cs : list Card) :
  IsEmpty {| cards := c :: cs |} = false.
Proof.
  unfold IsEmpty. apply bool_decide_eq_false. simpl.
  rewrite len_cons. pose proof (len_nonneg cs). lia.
Qed.

Lemma IsEmpty_Size (d : Deck) : IsEmpty d = bool_decide (Size d = 0).
Proof. reflexivity. Qed.

(** ** Running a method body step by step *)

Lemma bind_Done {A B} (m : M A) (k : A -> M B) (d d' : Deck) (a : A) :
  m d = Done (a, d') -> bind m k d = k a d'.
Proof. intros E. unfold bind. by rewrite E. Qed.

Lemma bind_ret {A B} (a : A) (k : A -> M B) (d : Deck) :
  bind (ret a) k d = k a d.
Proof. reflexivity. Qed.

Lemma bind_get {B} (k : Deck -> M B) (d : Deck) : bind get k d = k d d.
Proof. reflexivity. Qed.

Lemma bind_get_cards {B} (k : list Card -> M B) (d : Deck) :
  bind get_cards k d = k (cards d) d.
Proof. reflexivity. Qed.

Lemma bind_set_cards {B} (cs : list Card) (k : unit -> M B) (d : Deck) :
  bind (set_cards cs) k d = k tt {| cards := cs |}.
Proof. reflexivity. Qed.

Lemma bind_lift {A B} (o : outcome A) (k : A -> M B) (d : Deck) (a : A) :
  o = Done a -> bind (lift o) k d = k a d.
Proof. by intros ->. Qed.

Lemma bind_assoc {A B C} (m : M A) (k : A -> M B) (h : B -> M C) (d : Deck) :
  bind (bind m k) h d = bind m (fun a => bind (k a) h) d.
Proof. unfold bind. by destruct (m d) as [[a d']| |]. Qed.

Create Rewrite HintDb go.
#[local] Hint Rewrite @bind_ret @bind_get @bind_get_cards @bind_set_cards
  : go.

(** Runs the straight-line prefix of a method body. *)
Ltac go_steps := repeat (progress (autorewrite with go; cbn [cards])).

(** ** Dealing and peeking *)

Lemma Deal_cons (c : Card) (cs : list Card) :
  Deal {| cards := c :: cs |} = Done ((c, nil), {| cards := cs |}).
Proof.
  unfold Deal. go_steps. rewrite IsEmpty_cons.
  rewrite (bind_lift _ _ _ _ (index_Done (c :: cs) 0 c eq_refl)).
  rewrite (bind_lift _ _ _ cs).
  - by go_steps.
  - apply slice_from_Done. cbn [cards]. rewrite len_cons. pose proof (len_nonneg cs). lia.
Qed.

Lemma Deal_nil :
  Deal {| cards := [] |}
  = Done ((zeroCard, errors_New "cannot deal from empty deck"),
          {| cards := [] |}).
Proof. reflexivity. Qed.

Lemma Peek_cons (c : Card) (cs : list Card) :
  Peek {| cards := c :: cs |} = Done ((c, nil), {| cards := c :: cs |}).
Proof.
  unfold Peek. go_steps. rewrite IsEmpty_cons.
  rewrite (bind_lift _ _ _ _ (index_Done (c :: cs) 0 c eq_refl)).
  by go_steps.
Qed.

Lemma Peek_nil :
  Peek {| cards := [] |}
  = Done ((zeroCard, errors_New "cannot peek at empty deck"),
          {| cards := [] |}).
Proof. reflexivity. Qed.

Lemma DealN_negative (n : Z) (d : Deck) :
  n < 0 ->
  DealN n d
  = Done ((nil_slice, errors_New "cannot deal negative number of cards"), d).
Proof.
  intros Hn. unfold DealN. go_steps. by rewrite decide_True.
Qed.

Lemma DealN_too_many (n : Z) (d : Deck) :
  n > Size d ->
  DealN n d = Done ((nil_slice, errors_New "not enough cards in deck"), d).
Proof.
  intros Hn. unfold DealN. go_steps.
  pose proof (len_nonneg (cards d)). unfold Size in Hn.
  rewrite decide_False by lia. by rewrite decide_True.
Qed.

Lemma DealN_ok (n : Z) (d : Deck) :
  0 <= n <= Size d ->
  DealN n d
  = Done ((take (Z.to_nat n) (cards d), nil),
          {| cards := drop (Z.to_nat n) (cards d) |}).
Proof.
  intros Hn. unfold DealN. go_steps. unfold Size in Hn.
  rewrite decide_False by lia. rewrite decide_False by lia.
  rewrite (bind_lift _ _ _ _ (make_Done n ltac:(lia))).
  rewrite (bind_lift _ _ _ _ (slice_to_Done _ n Hn)).
  rewrite (bind_lift _ _ _ _ (slice_from_Done _ n Hn)).
  go_steps. by rewrite copy_make_take.
Qed.

Lemma PeekN_negative (n : Z) (d : Deck) :
  n < 0 ->
  PeekN n d
  = Done ((nil_slice, errors_New "cannot peek at negative number of cards"),
          d).
Proof.
  intros Hn. unfold PeekN. go_steps. by rewrite decide_True.
Qed.

Lemma PeekN_too_many (n : Z) (d : Deck) :
  n > Size d ->
  PeekN n d = Done ((nil_slice, errors_New "not enough cards in deck"), d).
Proof.
  intros Hn. unfold PeekN. go_steps.
  pose proof (len_nonneg (cards d)). unfold Size in Hn.
  rewrite decide_False by lia. by rewrite decide_True.
Qed.

Lemma PeekN_ok (n : Z) (d : Deck) :
  0 <= n <= Size d ->
  PeekN n d = Done ((take (Z.to_nat n) (cards d), nil), d).
Proof.
  intros Hn. unfold PeekN. go_steps. unfold Size in Hn.
  rewrite decide_False by lia. rewrite decide_False by lia.
  rewrite (bind_lift _ _ _ _ (make_Done n ltac:(lia))).
  rewrite (bind_lift _ _ _ _ (slice_to_Done _ n Hn)).
  go_steps. by rewrite copy_make_take.
Qed.

(** ** Inserting *)

Lemma InsertCard_invalid (card : Card) (position : Z) (d : Deck) :
  position < 0 \/ position > Size d ->
  InsertCard card position d = Done (errors_New "invalid position", d).
Proof.
  intros Hp. unfold InsertCard. go_steps. by rewrite decide_True.
Qed.

Lemma InsertCard_ok (card : Card) (position : Z) (d : Deck) :
  0 <= position <= Size d ->
  InsertCard card position d
  = Done (nil, {| cards := take (Z.to_nat position) (cards d)
                           ++ card :: drop (Z.to_nat position) (cards d) |}).
Proof.
  intros Hp. unfold InsertCard. go_steps. unfold Size in Hp.
  rewrite decide_False by lia.
  destruct d as [cs]. cbn [cards] in *.
  assert (Hl : (Z.to_nat position <= length cs)%nat) by (unfold len in Hp; lia).
  set (p := Z.to_nat position) in *.
  rewrite (bind_lift _ _ _ (drop (S p) (cs ++ [zeroCard]))).
  2:{ rewrite slice_from_Done.
      - do 2 f_equal. subst p. lia.
      - unfold append. rewrite len_app. unfold len in *. simpl. lia. }
  rewrite (bind_lift _ _ _ (drop p (cs ++ [zeroCard]))).
  2:{ rewrite slice_from_Done; [done|].
      unfold append. rewrite len_app. unfold len in *. simpl. lia. }
  assert (Hcopy : copy (drop (S p) (cs ++ [zeroCard])) (drop p (cs ++ [zeroCard]))
                  = drop p cs).
  { unfold copy. rewrite !length_drop, length_app. simpl.
    replace (Nat.min (length cs + 1 - S p) (length cs + 1 - p))
      with (length cs - p)%nat by lia.
    rewrite drop_app_le by lia.
    rewrite take_app_length' by (rewrite length_drop; lia).
    rewrite drop_drop.
    rewrite (drop_ge (cs ++ [zeroCard])) by (rewrite length_app; simpl; lia).
    apply app_nil_r. }
  rewrite Hcopy.
  replace (Z.to_nat (position + 1)) with (S p) by lia.
  assert (Htake : exists x, take (S p) (append cs zeroCard) = take p cs ++ [x]).
  { unfold append.
    destruct ((cs ++ [zeroCard]) !! p) as [x|] eqn:E.
    - exists x. rewrite (take_S_r _ _ _ E). by rewrite take_app_le.
    - apply lookup_ge_None in E. rewrite length_app in E. simpl in E. lia. }
  destruct Htake as [x ->].
  rewrite (bind_lift _ _ _ (take p cs ++ card :: drop p cs)).
  - by go_steps.
  - replace position with (Z.of_nat p) by lia.
    rewrite store_Done.
    + f_equal. rewrite <- app_assoc. simpl.
      rewrite insert_app_r_alt by (rewrite length_take; lia).
      rewrite length_take. by replace (p - p `min` length cs)%nat with 0%nat by lia.
    + rewrite !length_app, length_take, length_drop. simpl. lia.
Qed.

(** ** Filtering *)

Lemma filter_loop (p : Card -> bool) (cs acc : list Card) :
  fold_left (fun filtered card =>
               if p card then append filtered card else filtered) cs acc
  = acc ++ List.filter p cs.
Proof.
  revert acc. induction cs as [|c cs IH]; intros acc; simpl.
  - by rewrite app_nil_r.
  - rewrite IH. destruct (p c); [|done].
    unfold append. by rewrite <- app_assoc.
Qed.

Lemma Filter_Done (p : Card -> bool) (d : Deck) :
  Filter p d = Done ({| cards := List.filter p (cards d) |}, d).
Proof.
  unfold Filter. go_steps. rewrite filter_loop. simpl.
  unfold lift. by rewrite NewDeckFromCards_Done.
Qed.

Lemma length_filter_count (p : Card -> bool) (cs : list Card) :
  length (List.filter p cs) = count_matching p cs.
Proof.
  induction cs as [|c cs IH]; simpl; [done|].
  destruct (p c); simpl; by rewrite IH.
Qed.

Lemma filter_sublist (p : Card -> bool) (cs : list Card) :
  sublist (List.filter p cs) cs.
Proof.
  induction cs as [|c cs IH]; simpl; [constructor|].
  destruct (p c); by constructor.
Qed.

(** ** Swapping two cards *)

Lemma swap_Done (cs : list Card) (i j : nat) (a b : Card) :
  cs !! i = Some a -> cs !! j = Some b ->
  swap (Z.of_nat i) (Z.of_nat j) {| cards := cs |}
  = Done (tt, {| cards := <[j := a]> (<[i := b]> cs) |}).
Proof.
  intros Hi Hj. unfold swap. go_steps.
  rewrite (bind_lift _ _ _ _ (index_Done _ _ _ Hj)).
  rewrite (bind_lift _ _ _ _ (index_Done _ _ _ Hi)).
  rewrite (bind_lift _ _ _ (<[i := b]> cs))
    by (apply store_Done; by eapply lookup_lt_Some).
  rewrite (bind_lift _ _ _ (<[j := a]> (<[i := b]> cs))).
  - reflexivity.
  - apply store_Done. rewrite length_insert. by eapply lookup_lt_Some.
Qed.

Lemma insert_cons_Permutation (cs : list Card) (j : nat) (a b : Card) :
  cs !! j = Some b -> b :: <[j := a]> cs ≡ₚ a :: cs.
Proof.
  revert j. induction cs as [|c cs IH]; intros [|j] Hj; simplify_eq/=.
  - apply Permutation_swap.
  - rewrite Permutation_swap, (IH _ Hj). apply Permutation_swap.
Qed.

Lemma swap_Permutation (cs : list Card) (i j : nat) (a b : Card) :
  cs !! i = Some a -> cs !! j = Some b ->
  <[j := a]> (<[i := b]> cs) ≡ₚ cs.
Proof.
  revert i j. induction cs as [|c cs IH]; intros [|i] [|j] Hi Hj;
    simplify_eq/=.
  - done.
  - by apply insert_cons_Permutation.
  - by apply insert_cons_Permutation.
  - f_equiv. by apply IH.
Qed.

Lemma swap_adjacent (pre post : list Card) (a b : Card) :
  swap (len pre) (len pre + 1) {| cards := pre ++ a :: b :: post |}
  = Done (tt, {| cards := pre ++ b :: a :: post |}).
Proof.
  unfold len. replace (Z.of_nat (length pre) + 1) with (Z.of_nat (S (length pre))) by lia.
  rewrite (swap_Done _ _ _ a b).
  - do 3 f_equal.
    rewrite insert_app_r_alt by lia. rewrite Nat.sub_diag. simpl.
    rewrite insert_app_r_alt by lia.
    by replace (S (length pre) - length pre)%nat with 1%nat by lia.
  - by rewrite lookup_app_r, Nat.sub_diag by lia.
  - rewrite lookup_app_r by lia.
    by replace (S (length pre) - length pre)%nat with 1%nat by lia.
Qed.

(** ** The order of [Sort] *)

#[global] Instance card_le_refl : Reflexive card_le.
Proof. intros c. unfold card_le. lia. Qed.

#[global] Instance card_le_trans : Transitive card_le.
Proof. intros a b c. unfold card_le. lia. Qed.

#[global] Instance card_le_antisymm : AntiSymm (=) card_le.
Proof.
  intros [s1 r1] [s2 r2]. unfold card_le. simpl. intros H1 H2.
  f_equal; lia.
Qed.

#[global] Instance card_le_total : Total card_le.
Proof. intros a b. unfold card_le. lia. Qed.

Lemma out_of_order_false (a b : Card) :
  out_of_order a b = false <-> card_le a b.
Proof.
  unfold out_of_order, card_le.
  rewrite orb_false_iff, andb_false_iff, !bool_decide_eq_false. lia.
Qed.

Lemma out_of_order_true (a b : Card) :
  out_of_order a b = true -> card_le b a.
Proof.
  unfold out_of_order, card_le.
  rewrite orb_true_iff, andb_true_iff, !bool_decide_eq_true. lia.
Qed.

(** ** One pass of the inner loop, on contents *)

Lemma bubble_length (k : nat) (cs : list Card) :
  length (bubble k cs) = length cs.
Proof.
  revert cs. induction k as [|k IH]; intros cs; [done|].
  destruct cs as [|a [|b rest]]; [done..|]. simpl.
  destruct (out_of_order a b); simpl; by rewrite IH.
Qed.

Lemma bubble_Permutation (k : nat) (cs : list Card) : bubble k cs ≡ₚ cs.
Proof.
  revert cs. induction k as [|k IH]; intros cs; [done|].
  destruct cs as [|a [|b rest]]; [done..|]. simpl.
  destruct (out_of_order a b).
  - rewrite IH. apply Permutation_swap.
  - by rewrite IH.
Qed.

(** A pass of [k] steps touches the first [k + 1] cards only. *)
Lemma bubble_app (k : nat) (u s : list Card) :
  length u = S k -> bubble k (u ++ s) = bubble k u ++ s.
Proof.
  revert u. induction k as [|k IH]; intros u Hu; [done|].
  destruct u as [|a [|b rest]]; simplify_eq/=.
  destruct (out_of_order a b); simpl; f_equal.
  - apply (IH (a :: rest)). simpl. lia.
  - apply (IH (b :: rest)). simpl. lia.
Qed.

(** A pass over [k + 1] cards moves a greatest one to the end. *)
Lemma bubble_last (k : nat) (u : list Card) :
  length u = S k ->
  exists u' mx, bubble k u = u' ++ [mx] /\ Forall (fun x => card_le x mx) u'.
Proof.
  revert u. induction k as [|k IH]; intros u Hu.
  - destruct u as [|a [|b rest]]; simplify_eq/=. by exists [], a.
  - destruct u as [|a [|b rest]]; simplify_eq/=.
    destruct (out_of_order a b) eqn:E.
    + destruct (IH (a :: rest)) as (u' & mx & Hb & Hle); [simpl; lia|].
      exists (b :: u'), mx. rewrite Hb. split; [done|].
      constructor; [|done].
      apply out_of_order_true in E. etrans; [exact E|].
      assert (Ha : a ∈ u' ++ [mx])
        by (rewrite <- Hb, bubble_Permutation; left).
      apply elem_of_app in Ha as [Ha|Ha%list_elem_of_singleton].
      * by eapply Forall_forall in Hle.
      * by subst.
    + destruct (IH (b :: rest)) as (u' & mx & Hb & Hle); [simpl; lia|].
      exists (a :: u'), mx. rewrite Hb. split; [done|].
      constructor; [|done].
      apply out_of_order_false in E. etrans; [exact E|].
      assert (Ha : b ∈ u' ++ [mx])
        by (rewrite <- Hb, bubble_Permutation; left).
      apply elem_of_app in Ha as [Ha|Ha%list_elem_of_singleton].
      * by eapply Forall_forall in Hle.
      * by subst.
Qed.

(** A pass changes nothing in a sequence that is already in order. *)
Lemma bubble_Sorted (k : nat) (cs : list Card) :
  Sorted card_le cs -> bubble k cs = cs.
Proof.
  revert cs. induction k as [|k IH]; intros cs Hs; [done|].
  destruct cs as [|a [|b rest]]; [done..|]. simpl.
  apply Sorted_inv in Hs as [Hs Hab]. apply HdRel_inv in Hab.
  apply out_of_order_false in Hab. rewrite Hab. f_equal. by apply IH.
Qed.

(** ** The loops of [Sort] *)

Lemma for_loop_S {V} (fuel : nat) (cond : V -> M bool) (body : V -> M V)
    (v : V) :
  for_loop (S fuel) cond body v
  = bind (cond v) (fun c : bool =>
      if c then bind (body v) (for_loop fuel cond body) else ret v).
Proof. reflexivity. Qed.

#[local] Hint Rewrite @bind_assoc : go.

Lemma Sort_inner_from (i : Z) (k fuel : nat) (pre cs : list Card) :
  (k < fuel)%nat ->
  (k < length cs)%nat ->
  len (pre ++ cs) - i - 1 = len pre + Z.of_nat k ->
  for_loop fuel
    (fun j => let* cs := get_cards in ret (bool_decide (j < len cs - i - 1)))%go
    (fun j =>
       let* cs := get_cards in
       let* card1 := lift (index cs j) in
       let* card2 := lift (index cs (j + 1)) in
       (if out_of_order card1 card2 then swap j (j + 1) else ret tt) ;;
       ret (j + 1))%go
    (len pre) {| cards := pre ++ cs |}
  = Done (len pre + Z.of_nat k, {| cards := pre ++ bubble k cs |}).
Proof.
  revert fuel pre cs. induction k as [|k IH]; intros fuel pre cs Hf Hk Hb.
  - destruct fuel as [|fuel]; [lia|]. rewrite for_loop_S. go_steps.
    rewrite bool_decide_eq_false_2 by lia. unfold ret. do 2 f_equal. lia.
  - destruct fuel as [|fuel]; [lia|].
    destruct cs as [|a [|b rest]]; simpl in Hk; [lia..|].
    rewrite for_loop_S. go_steps.
    rewrite bool_decide_eq_true_2 by lia. go_steps.
    rewrite (bind_lift _ _ _ a).
    2:{ unfold len. apply index_Done.
        by rewrite lookup_app_r, Nat.sub_diag by lia. }
    go_steps. rewrite (bind_lift _ _ _ b).
    2:{ unfold len.
        replace (Z.of_nat (length pre) + 1) with (Z.of_nat (S (length pre)))
          by lia.
        apply index_Done. rewrite lookup_app_r by lia.
        by replace (S (length pre) - length pre)%nat with 1%nat by lia. }
    simpl bubble. go_steps. destruct (out_of_order a b).
    + rewrite (bind_Done _ _ _ _ _ (swap_adjacent pre rest a b)). go_steps.
      replace (len pre + 1) with (len (pre ++ [b]))
        by (rewrite len_app; reflexivity).
      replace (pre ++ b :: a :: rest) with ((pre ++ [b]) ++ a :: rest)
        by (by rewrite <- app_assoc).
      rewrite IH.
      * rewrite <- app_assoc, len_app. simpl. do 2 f_equal.
        unfold len. simpl. lia.
      * lia.
      * simpl. lia.
      * rewrite <- app_assoc. simpl. rewrite !len_app, !len_cons in *.
        unfold len in *. simpl in *. lia.
    + go_steps.
      replace (len pre + 1) with (len (pre ++ [a]))
        by (rewrite len_app; reflexivity).
      replace (pre ++ a :: b :: rest) with ((pre ++ [a]) ++ b :: rest)
        by (by rewrite <- app_assoc).
      rewrite IH.
      * rewrite <- app_assoc, len_app. simpl. do 2 f_equal.
        unfold len. simpl. lia.
      * lia.
      * simpl. lia.
      * rewrite <- app_assoc. simpl. rewrite !len_app, !len_cons in *.
        unfold len in *. simpl in *. lia.
Qed.

(** One run of the inner loop is one pass. *)
Lemma Sort_inner_Done (fuel : nat) (i : Z) (k : nat) (cs : list Card) :
  (k < fuel)%nat -> (k < length cs)%nat ->
  len cs - i - 1 = Z.of_nat k ->
  Sort_inner fuel i {| cards := cs |}
  = Done (Z.of_nat k, {| cards := bubble k cs |}).
Proof.
  intros Hf Hk Hb. unfold Sort_inner.
  apply (Sort_inner_from i k fuel [] cs Hf Hk). simpl. unfold len at 2. simpl. lia.
Qed.

(** The outer loop, entered with [i = len s]: the cards [s] at the end are
    in their final place, the cards [u] before them are still to be sorted. *)
Lemma Sort_outer_from (fin r : nat) :
  forall (fuel : nat) (u s : list Card),
  (r < fuel)%nat ->
  length u = S r ->
  (length (u ++ s) < fin)%nat ->
  StronglySorted card_le s ->
  Forall (fun x => Forall (card_le x) s) u ->
  exists (i' : Z) (cs' : list Card),
    for_loop fuel
      (fun i => let* cs := get_cards in ret (bool_decide (i < len cs - 1)))%go
      (fun i => Sort_inner fin i ;; ret (i + 1))%go
      (len s) {| cards := u ++ s |}
    = Done (i', {| cards := cs' |})
    /\ StronglySorted card_le cs'
    /\ cs' ≡ₚ u ++ s.
Proof.
  induction r as [|r IH]; intros fuel u s Hf Hu Hfin Hs Hus.
  - destruct fuel as [|fuel]; [lia|].
    destruct u as [|x [|y u]]; try (simpl in Hu; lia).
    exists (len s), (x :: s). rewrite for_loop_S. go_steps.
    change ([x] ++ s) with (x :: s).
    rewrite bool_decide_eq_false_2 by (rewrite len_cons; lia).
    split; [done|]. split; [|done].
    apply Forall_inv in Hus. by constructor.
  - destruct fuel as [|fuel]; [lia|].
    rewrite for_loop_S. go_steps.
    rewrite bool_decide_eq_true_2
      by (rewrite len_app; unfold len; rewrite Hu; lia).
    go_steps.
    rewrite (bind_Done _ _ _ _ _ (Sort_inner_Done fin (len s) (S r) (u ++ s)
      ltac:(rewrite length_app in Hfin; lia)
      ltac:(rewrite length_app; lia)
      ltac:(rewrite len_app; unfold len; rewrite Hu; lia))).
    go_steps. rewrite (bubble_app _ _ _ Hu).
    destruct (bubble_last (S r) u Hu) as (u' & mx & Hb & Hle).
    assert (Hperm : u' ++ [mx] ≡ₚ u) by (rewrite <- Hb; apply bubble_Permutation).
    assert (Hlen : length u' = S r).
    { apply (f_equal length) in Hb.
      rewrite bubble_length, length_app in Hb. simpl in Hb. lia. }
    rewrite Hb, <- app_assoc. simpl.
    assert (Hmx : Forall (card_le mx) s).
    { eapply Forall_forall in Hus; [exact Hus|].
      rewrite <- Hperm. apply elem_of_app. right. left. }
    destruct (IH fuel u' (mx :: s)) as (i' & cs' & Hrun & Hsorted & Hp).
    + lia.
    + done.
    + rewrite length_app in *. simpl. lia.
    + by constructor.
    + apply Forall_forall. intros x Hx. constructor.
      * by eapply Forall_forall in Hle.
      * eapply Forall_forall in Hus; [exact Hus|].
        rewrite <- Hperm. apply elem_of_app. by left.
    + exists i', cs'. split; [|split; [done|]].
      * rewrite <- Hrun. f_equal. rewrite len_cons. lia.
      * rewrite Hp, <- Hperm, <- app_assoc. done.
Qed.

Lemma Sort_Done (d : Deck) :
  exists cs' : list Card,
    Sort d = Done (tt, {| cards := cs' |})
    /\ StronglySorted card_le cs'
    /\ cs' ≡ₚ cards d.
Proof.
  destruct d as [cs]. unfold Sort. go_steps.
  destruct cs as [|c cs].
  - exists []. split; [done|]. split; [constructor|done].
  - destruct (Sort_outer_from (S (length (c :: cs))) (length cs)
               (S (length (c :: cs))) (c :: cs) [])
      as (i' & cs' & Hrun & Hsorted & Hp).
    + simpl. lia.
    + done.
    + rewrite app_nil_r. lia.
    + constructor.
    + apply Forall_forall. intros x _. constructor.
    + exists cs'. rewrite app_nil_r in *. split; [|done].
      change (len []) with 0 in Hrun.
      by rewrite (bind_Done _ _ _ _ _ Hrun).
Qed.

(** ** The loop of [Shuffle] and [ShuffleWithSeed] *)

Lemma lcg_range (r : @Rand lcg) (n : Z) :
  0 < n -> 0 <= fst (@Intn_next lcg r n) < n.
Proof. intros Hn. simpl. by apply Z.mod_pos_bound. Qed.

Section Shuffling.
Context `{RandSource}.

(** What [math/rand] documents for [Intn]: a value in [[0, n)]. *)
Hypothesis Intn_range :
  forall (r : Rand) (n : Z), 0 < n -> 0 <= fst (Intn_next r n) < n.

Lemma shuffle_loop_from (i : nat) :
  forall (fuel : nat) (r : Rand) (cs : list Card),
  (i < fuel)%nat ->
  (i < length cs)%nat ->
  exists (v : Z * Rand) (cs' : list Card),
    for_loop fuel
      (fun '(i, _) => ret (bool_decide (i > 0)))
      (fun '(i, r) =>
         let* (j, r') := lift (rand_Intn r (i + 1)) in
         swap i j ;;
         ret (i - 1, r'))%go
      (Z.of_nat i, r) {| cards := cs |}
    = Done (v, {| cards := cs' |})
    /\ cs' ≡ₚ cs.
Proof.
  induction i as [|i IH]; intros fuel r cs Hf Hi.
  - destruct fuel as [|fuel]; [lia|].
    exists (0, r), cs. rewrite for_loop_S. cbn beta iota. go_steps.
    by rewrite bool_decide_eq_false_2 by lia.
  - destruct fuel as [|fuel]; [lia|].
    rewrite for_loop_S. cbn beta iota. go_steps.
    rewrite bool_decide_eq_true_2 by lia. go_steps.
    destruct (Intn_next r (Z.of_nat (S i) + 1)) as [j r'] eqn:Ej.
    pose proof (Intn_range r (Z.of_nat (S i) + 1) ltac:(lia)) as Hj.
    rewrite Ej in Hj. cbn [fst] in Hj.
    rewrite (bind_lift _ _ _ (j, r')).
    2:{ unfold rand_Intn. rewrite decide_False by lia. by rewrite Ej. }
    cbn beta iota. go_steps.
    destruct (lookup_lt_is_Some_2 cs (S i) Hi) as [a Ha].
    destruct (Z_of_nat_complete j) as [jn ->]; [lia|].
    destruct (lookup_lt_is_Some_2 cs jn ltac:(lia)) as [b Hb].
    rewrite (bind_Done _ _ _ _ _ (swap_Done _ _ _ _ _ Ha Hb)). go_steps.
    replace (Z.of_nat (S i) - 1) with (Z.of_nat i) by lia.
    destruct (IH fuel r' (<[jn := a]> (<[S i := b]> cs)))
      as (v & cs' & Hrun & Hp).
    + lia.
    + rewrite !length_insert. lia.
    + exists v, cs'. split; [done|].
      rewrite Hp. by apply swap_Permutation.
Qed.

Lemma shuffle_loop_Done (r : Rand) (d : Deck) :
  exists cs' : list Card,
    shuffle_loop r d = Done (tt, {| cards := cs' |}) /\ cs' ≡ₚ cards d.
Proof.
  destruct d as [cs]. unfold shuffle_loop. go_steps.
  destruct cs as [|c cs].
  - exists []. split; [|done]. rewrite for_loop_S. cbn beta iota. by go_steps.
  - destruct (shuffle_loop_from (length cs) (S (length (c :: cs))) r (c :: cs))
      as (v & cs' & Hrun & Hp); [simpl; lia..|].
    exists cs'. split; [|done].
    replace (len (c :: cs) - 1) with (Z.of_nat (length cs))
      by (unfold len; simpl; lia).
    by rewrite (bind_Done _ _ _ _ _ Hrun).
Qed.

End Shuffling.

Lemma Shuffle_loop `{RandSource} (now : Z) :
  Shuffle now = shuffle_loop (rand_New now).
Proof. reflexivity. Qed.

Lemma ShuffleWithSeed_loop `{RandSource} (seed : Z) :
  ShuffleWithSeed seed = shuffle_loop (rand_New seed).
Proof. reflexivity. Qed.

(** ** Counting *)

Lemma sum_values_insert (k v : Z) (m : gmap Z Z) :
  m !! k = None -> sum_values (<[k := v]> m) = v + sum_values m.
Proof.
  intros Hk. unfold sum_values.
  rewrite map_fold_insert_L; [done| |done]. intros. lia.
Qed.

Lemma sum_values_incr (k : Z) (m : gmap Z Z) :
  sum_values (incr k m) = sum_values m + 1.
Proof.
  unfold incr. destruct (m !! k) as [v|] eqn:E; simpl.
  - rewrite <- (insert_delete_id m k v E) at 2.
    rewrite <- insert_delete_eq.
    rewrite !sum_values_insert by apply lookup_delete_eq. lia.
  - rewrite sum_values_insert by done. lia.
Qed.

Section Counting.
Variable key : Card -> Z.

Lemma count_loop_sum (cs : list Card) (m : gmap Z Z) :
  sum_values (fold_left (fun counts card => incr (key card) counts) cs m)
  = sum_values m + len cs.
Proof.
  revert m. induction cs as [|c cs IH]; intros m; simpl.
  - unfold len. simpl. lia.
  - rewrite IH, sum_values_incr, len_cons. lia.
Qed.

Lemma count_loop_positive (cs : list Card) (m : gmap Z Z) :
  (forall k v, m !! k = Some v -> 0 < v) ->
  forall k v,
    fold_left (fun counts card => incr (key card) counts) cs m !! k = Some v ->
    0 < v.
Proof.
  revert m. induction cs as [|c cs IH]; intros m Hm k v; simpl.
  - apply Hm.
  - apply IH. clear k v. intros k v. unfold incr.
    destruct (decide (key c = k)) as [->|Hne].
    + rewrite lookup_insert_eq. intros [= <-].
      destruct (m !! k) as [w|] eqn:E; simpl; [|lia].
      apply Hm in E. lia.
    + rewrite lookup_insert_ne by done. apply Hm.
Qed.

(** The count kept for [k] is the number of cards whose key is [k]. *)
Lemma count_loop_lookup (cs : list Card) (m : gmap Z Z) (k : Z) :
  default 0 (fold_left (fun counts card => incr (key card) counts) cs m !! k)
  = default 0 (m !! k)
    + Z.of_nat (count_matching (fun c => bool_decide (key c = k)) cs).
Proof.
  revert m. induction cs as [|c cs IH]; intros m; simpl.
  - lia.
  - rewrite IH. unfold incr. case_bool_decide as Hk.
    + rewrite Hk, lookup_insert_eq. simpl. lia.
    + rewrite lookup_insert_ne by done. simpl. lia.
Qed.

End Counting.

Lemma sum_values_empty : sum_values ∅ = 0.
Proof. unfold sum_values. apply map_fold_empty. Qed.

(** Every sequence of draws is covered: the loop permutes the deck under the
    generator that replays it. *)
Lemma replay_range (r : @Rand replay) (n : Z) :
  0 < n -> 0 <= fst (@Intn_next replay r n) < n.
Proof. intros Hn. simpl. by apply Z.mod_pos_bound. Qed.

Corollary shuffle_loop_any_draws (draws : list Z) (d : Deck) :
  exists cs' : list Card,
    @shuffle_loop replay draws d = Done (tt, {| cards := cs' |})
    /\ cs' ≡ₚ cards d.
Proof. apply (@shuffle_loop_Done replay replay_range). Qed.

(** ** The order of a shuffle depends on the size and the draws only *)

Lemma len_map (f : Card -> Card) (cs : list Card) : len (map f cs) = len cs.
Proof. unfold len. by rewrite length_map. Qed.

Lemma index_map (f : Card -> Card) (cs : list Card) (i : Z) :
  index (map f cs) i = obind (index cs i) (fun c => Done (f c)).
Proof.
  unfold index. rewrite len_map. case_decide; [|done].
  change (map f cs) with (f <$> cs). rewrite list_lookup_fmap.
  by destruct (cs !! Z.to_nat i).
Qed.

Lemma store_map (f : Card -> Card) (cs : list Card) (i : Z) (c : Card) :
  store (map f cs) i (f c) = obind (store cs i c) (fun cs' => Done (map f cs')).
Proof.
  unfold store. rewrite len_map. case_decide; [|done]. simpl.
  change (map f) with (fmap (M:=list) f). by rewrite list_fmap_insert.
Qed.

Lemma swap_map (f : Card -> Card) (cs : list Card) (i j : Z) :
  swap i j {| cards := map f cs |} = relabel f (swap i j {| cards := cs |}).
Proof.
  unfold swap, relabel, bind, lift, get_cards, set_cards. simpl.
  rewrite !index_map.
  destruct (index cs j) as [x| |]; [simpl|done..].
  destruct (index cs i) as [y| |]; [simpl|done..].
  rewrite store_map.
  destruct (store cs i x) as [cs1| |]; [simpl|done..].
  rewrite store_map.
  by destruct (store cs1 j y) as [cs2| |].
Qed.

Lemma bind_relabel {A B} (f : Card -> Card) (m : M A) (k : A -> M B)
    (cs : list Card) :
  m {| cards := map f cs |} = relabel f (m {| cards := cs |}) ->
  (forall (a : A) (cs' : list Card),
     k a {| cards := map f cs' |} = relabel f (k a {| cards := cs' |})) ->
  bind m k {| cards := map f cs |} = relabel f (bind m k {| cards := cs |}).
Proof.
  intros Hm Hk. unfold bind. rewrite Hm.
  destruct (m {| cards := cs |}) as [[a [cs']]| |]; [|reflexivity..].
  simpl. apply Hk.
Qed.

Lemma shuffle_loop_map `{RandSource} (f : Card -> Card) (fuel : nat) :
  forall (v : Z * Rand) (cs : list Card),
  for_loop fuel
    (fun '(i, _) => ret (bool_decide (i > 0)))
    (fun '(i, r) =>
       let* (j, r') := lift (rand_Intn r (i + 1)) in
       swap i j ;;
       ret (i - 1, r'))%go
    v {| cards := map f cs |}
  = relabel f
      (for_loop fuel
         (fun '(i, _) => ret (bool_decide (i > 0)))
         (fun '(i, r) =>
            let* (j, r') := lift (rand_Intn r (i + 1)) in
            swap i j ;;
            ret (i - 1, r'))%go
         v {| cards := cs |}).
Proof.
  induction fuel as [|fuel IH]; intros [i r] cs; [reflexivity|].
  rewrite !for_loop_S. cbn beta iota. go_steps.
  case_bool_decide; [|reflexivity]. go_steps.
  destruct (rand_Intn r (i + 1)) as [[j r']| |] eqn:E; [|reflexivity..].
  rewrite !(bind_lift _ _ _ (j, r')) by done. cbn beta iota. go_steps.
  apply bind_relabel; [apply swap_map|].
  intros [] cs'. go_steps. apply IH.
Qed.

(** Relabelling the cards and shuffling commute: which position each card
    moves to is fixed by the seed and the size of the deck. *)
Lemma ShuffleWithSeed_relabel `{RandSource} (f : Card -> Card) (seed : Z)
    (d : Deck) :
  ShuffleWithSeed seed {| cards := map f (cards d) |}
  = relabel f (ShuffleWithSeed seed d).
Proof.
  destruct d as [cs]. rewrite ShuffleWithSeed_loop. unfold shuffle_loop.
  go_steps. rewrite len_map, length_map.
  apply bind_relabel; [apply shuffle_loop_map|]. reflexivity.
Qed.

(** * The claims *)

(** C1. [ShuffleWithSeed] is deterministic.  For every generator, every seed
    and every two decks holding equal card sequences, [ShuffleWithSeed seed]
    has the same outcome on both; and when the generator keeps the range
    [math/rand] documents for [Intn], both calls return and leave one and
    the same card sequence.  The method reads nothing but the deck and the
    seed. *)
Theorem ShuffleWithSeed_deterministic `{RandSource} (seed : Z)
    (d1 d2 : Deck) :
  cards d1 = cards d2 ->
  ShuffleWithSeed seed d1 = ShuffleWithSeed seed d2
  /\ ((forall (r : Rand) (n : Z), 0 < n -> 0 <= fst (Intn_next r n) < n) ->
      exists cs' : list Card,
        ShuffleWithSeed seed d1 = Done (tt, {| cards := cs' |})
        /\ ShuffleWithSeed seed d2 = Done (tt, {| cards := cs' |})).
Proof.
  destruct d1 as [cs1], d2 as [cs2]. simpl. intros ->. split; [done|].
  intros Hrange. rewrite ShuffleWithSeed_loop.
  destruct (shuffle_loop_Done Hrange (rand_New seed) {| cards := cs2 |})
    as (cs' & Hrun & _).
  by exists cs'.
Qed.

Lemma ShuffleWithSeed_deterministic_witness :
  cards NewDeck = cards {| cards := cards NewDeck |}
  /\ @ShuffleWithSeed lcg 42 NewDeck
     = @ShuffleWithSeed lcg 42 {| cards := cards NewDeck |}
  /\ exists cs' : list Card,
       @ShuffleWithSeed lcg 42 NewDeck = Done (tt, {| cards := cs' |})
       /\ @ShuffleWithSeed lcg 42 {| cards := cards NewDeck |}
          = Done (tt, {| cards := cs' |}).
Proof.
  split; [reflexivity|].
  destruct (@ShuffleWithSeed_deterministic lcg 42 NewDeck
              {| cards := cards NewDeck |} eq_refl) as [Heq Hex].
  split; [exact Heq | exact (Hex lcg_range)].
Defined.

(** C2. A failed mutation leaves the deck untouched: whenever [DealN n],
    [Deal] or [InsertCard card position] returns an error, the deck after
    the call is the deck before it. *)
Theorem failed_mutation_leaves_deck (d d' : Deck) (e : string) :
  (forall (n : Z) (hand : list Card),
     DealN n d = Done ((hand, errors_New e), d') -> d' = d)
  /\ (forall card : Card,
        Deal d = Done ((card, errors_New e), d') -> d' = d)
  /\ (forall (card : Card) (position : Z),
        InsertCard card position d = Done (errors_New e, d') -> d' = d).
Proof.
  split; [|split].
  - intros n hand.
    destruct (decide (n < 0)) as [Hneg|Hpos].
    { rewrite DealN_negative by done. by intros [= _ _ <-]. }
    destruct (decide (n > Size d)) as [Hbig|Hfit].
    { rewrite DealN_too_many by done. by intros [= _ _ <-]. }
    rewrite DealN_ok by lia. discriminate.
  - intros card. destruct d as [[|c cs]].
    + rewrite Deal_nil. by intros [= _ _ <-].
    + rewrite Deal_cons. discriminate.
  - intros card position.
    destruct (decide (position < 0 \/ position > Size d)) as [Hbad|Hok].
    + rewrite InsertCard_invalid by done. by intros [= _ <-].
    + rewrite InsertCard_ok by lia. discriminate.
Qed.

Lemma failed_mutation_leaves_deck_witness :
  (DealN 53 NewDeck
   = Done ((nil_slice, errors_New "not enough cards in deck"), NewDeck)
   /\ NewDeck = NewDeck)
  /\ (Deal NewEmptyDeck
      = Done ((zeroCard, errors_New "cannot deal from empty deck"),
              NewEmptyDeck)
      /\ NewEmptyDeck = NewEmptyDeck)
  /\ (InsertCard (NewCard Hearts Ace) 53 NewDeck
      = Done (errors_New "invalid position", NewDeck)
      /\ NewDeck = NewDeck).
Proof.
  split; [|split].
  - assert (E : DealN 53 NewDeck
      = Done ((nil_slice, errors_New "not enough cards in deck"), NewDeck))
      by (vm_compute; reflexivity).
    split; [exact E|].
    exact (proj1 (failed_mutation_leaves_deck NewDeck NewDeck _) _ _ E).
  - assert (E : Deal NewEmptyDeck
      = Done ((zeroCard, errors_New "cannot deal from empty deck"),
              NewEmptyDeck)) by reflexivity.
    split; [exact E|].
    exact (proj1 (proj2
      (failed_mutation_leaves_deck NewEmptyDeck NewEmptyDeck _)) _ E).
  - assert (E : InsertCard (NewCard Hearts Ace) 53 NewDeck
      = Done (errors_New "invalid position", NewDeck))
      by (vm_compute; reflexivity).
    split; [exact E|].
    exact (proj2 (proj2
      (failed_mutation_leaves_deck NewDeck NewDeck _)) _ _ E).
Defined.

(** The cards of [NewDeck], written out by the two nested loops. *)
Lemma NewDeck_cards :
  cards NewDeck = flat_map (fun s => map (NewCard s) ranks) suits.
Proof. reflexivity. Qed.

(** Splits membership in an explicit list into its cases. *)
Ltac enum H :=
  apply list_elem_of_In in H; simpl in H;
  repeat (destruct H as [H|H]; [symmetry in H; subst|]); [..|destruct H].

(** C3. [NewDeck] holds exactly 52 cards: each pair of one of the four suits
    and one of the thirteen ranks exactly once and nothing else, suit by
    suit in the order Spades, Hearts, Diamonds, Clubs, ranks ascending from
    Ace to King within a suit; so it counts 13 cards for every suit and 4
    for every rank. *)
Theorem NewDeck_full :
  Size NewDeck = 52
  /\ suits = [Spades; Hearts; Diamonds; Clubs]
  /\ ranks = [Ace; Two; Three; Four; Five; Six; Seven; Eight; Nine; Ten;
              Jack; Queen; King]
  /\ (forall s r : Z, s ∈ suits -> r ∈ ranks ->
        count_matching (fun c => bool_decide (c = NewCard s r))
          (cards NewDeck) = 1%nat)
  /\ (forall c : Card, c ∈ cards NewDeck ->
        card_Suit c ∈ suits /\ card_Rank c ∈ ranks)
  /\ (forall (si ri : nat) (s r : Z),
        suits !! si = Some s -> ranks !! ri = Some r ->
        cards NewDeck !! (13 * si + ri)%nat = Some (NewCard s r))
  /\ (forall s : Z, s ∈ suits -> CountBySuit NewDeck !! s = Some 13)
  /\ (forall r : Z, r ∈ ranks -> CountByRank NewDeck !! r = Some 4).
Proof.
  split; [reflexivity|]. split; [reflexivity|]. split; [reflexivity|].
  split; [|split; [|split; [|split]]].
  - intros s r Hs Hr. enum Hs; enum Hr; vm_compute; reflexivity.
  - intros c Hc. enum Hc; split; apply (bool_decide_unpack _); vm_compute;
      exact I.
  - intros si ri s r Hs Hr.
    assert (Hsi : (si < 4)%nat) by (by apply lookup_lt_Some in Hs).
    assert (Hri : (ri < 13)%nat) by (by apply lookup_lt_Some in Hr).
    destruct si as [|[|[|[|si]]]]; [..|lia];
      destruct ri as [|[|[|[|[|[|[|[|[|[|[|[|[|ri]]]]]]]]]]]]]; [..|lia];
      vm_compute in Hs, Hr; simplify_eq; reflexivity.
  - intros s Hs. enum Hs; vm_compute; reflexivity.
  - intros r Hr. enum Hr; vm_compute; reflexivity.
Qed.

Lemma NewDeck_full_witness :
  (Hearts ∈ suits /\ Queen ∈ ranks
   /\ count_matching (fun c => bool_decide (c = NewCard Hearts Queen))
        (cards NewDeck) = 1%nat)
  /\ (suits !! 1%nat = Some Hearts /\ ranks !! 11%nat = Some Queen
      /\ cards NewDeck !! 24%nat = Some (NewCard Hearts Queen))
  /\ CountBySuit NewDeck !! Hearts = Some 13
  /\ CountByRank NewDeck !! Queen = Some 4.
Proof.
  destruct NewDeck_full as (_ & _ & _ & Honce & _ & Horder & Hsuit & Hrank).
  assert (Hs : Hearts ∈ suits) by (apply (bool_decide_unpack _); vm_compute; exact I).
  assert (Hr : Queen ∈ ranks) by (apply (bool_decide_unpack _); vm_compute; exact I).
  split; [|split; [|split]].
  - split; [exact Hs|]. split; [exact Hr|]. exact (Honce Hearts Queen Hs Hr).
  - split; [reflexivity|]. split; [reflexivity|].
    exact (Horder 1%nat 11%nat Hearts Queen eq_refl eq_refl).
  - exact (Hsuit Hearts Hs).
  - exact (Hrank Queen Hr).
Defined.

(** C4. On a deck of size [n > 0], [Deal] succeeds, returns the card at
    index 0 and leaves the former sequence without its first element, of
    size [n - 1]; on the empty deck it fails with the empty-deck error. *)
Theorem Deal_top_card (d : Deck) (n : Z) :
  Size d = n ->
  (n > 0 ->
   exists top : Card,
     index (cards d) 0 = Done top
     /\ Deal d = Done ((top, nil), {| cards := drop 1 (cards d) |})
     /\ Size {| cards := drop 1 (cards d) |} = n - 1)
  /\ (n = 0 ->
      Deal d
      = Done ((zeroCard, errors_New "cannot deal from empty deck"), d)).
Proof.
  destruct d as [[|c cs]]; unfold Size; simpl; intros <-; split.
  - unfold len. simpl. lia.
  - intros _. apply Deal_nil.
  - intros _. exists c. split; [by apply (index_Done (c :: cs) 0)|].
    split; [apply Deal_cons|]. rewrite drop_0, len_cons. lia.
  - rewrite len_cons. pose proof (len_nonneg cs). lia.
Qed.

Lemma Deal_top_card_witness :
  (Size NewDeck = 52 /\ 52 > 0
   /\ exists top : Card,
        index (cards NewDeck) 0 = Done top
        /\ Deal NewDeck
           = Done ((top, nil), {| cards := drop 1 (cards NewDeck) |})
        /\ Size {| cards := drop 1 (cards NewDeck) |} = 52 - 1)
  /\ (Size NewEmptyDeck = 0
      /\ Deal NewEmptyDeck
         = Done ((zeroCard, errors_New "cannot deal from empty deck"),
                 NewEmptyDeck)).
Proof.
  split.
  - split; [reflexivity|]. split; [lia|].
    exact (proj1 (Deal_top_card NewDeck 52 eq_refl) ltac:(lia)).
  - split; [reflexivity|].
    exact (proj2 (Deal_top_card NewEmptyDeck 0 eq_refl) eq_refl).
Defined.

(** C5. [Sort] returns, and leaves a permutation of the former sequence that
    is non-decreasing by suit (Spades < Hearts < Diamonds < Clubs) and, on
    equal suits, by rank (Ace < ... < King); on a deck already in that order
    it leaves the sequence as it was. *)
Theorem Sort_sorts (d : Deck) :
  exists cs' : list Card,
    Sort d = Done (tt, {| cards := cs' |})
    /\ cs' ≡ₚ cards d
    /\ Sorted card_le cs'
    /\ (Sorted card_le (cards d) -> cs' = cards d).
Proof.
  destruct (Sort_Done d) as (cs' & Hrun & Hsorted & Hp).
  exists cs'. split; [done|]. split; [done|].
  split; [by apply StronglySorted_Sorted|].
  intros Hd. apply (Sorted_unique card_le); [|done..].
  by apply StronglySorted_Sorted.
Qed.

Lemma Sort_sorts_witness :
  Sorted card_le (cards NewDeck)
  /\ Sort NewDeck = Done (tt, NewDeck).
Proof.
  assert (Hs : Sorted card_le (cards NewDeck))
    by (apply (bool_decide_unpack _); vm_compute; exact I).
  split; [exact Hs|].
  destruct (Sort_sorts NewDeck) as (cs' & Hrun & _ & _ & Hsame).
  rewrite Hrun, (Hsame Hs). reflexivity.
Defined.

(** C6. Shuffling permutes: with a generator that keeps the range
    [math/rand] documents for [Intn], whatever values it draws, [Shuffle]
    (for every clock reading) and [ShuffleWithSeed] (for every seed) return
    and leave a permutation of the former card sequence, of the same size. *)
Theorem Shuffle_Permutation `{RandSource} (now seed : Z) (d : Deck) :
  (forall (r : Rand) (n : Z), 0 < n -> 0 <= fst (Intn_next r n) < n) ->
  (exists cs' : list Card,
     Shuffle now d = Done (tt, {| cards := cs' |})
     /\ cs' ≡ₚ cards d
     /\ Size {| cards := cs' |} = Size d)
  /\ (exists cs' : list Card,
        ShuffleWithSeed seed d = Done (tt, {| cards := cs' |})
        /\ cs' ≡ₚ cards d
        /\ Size {| cards := cs' |} = Size d).
Proof.
  intros Hrange. rewrite Shuffle_loop, ShuffleWithSeed_loop. split.
  - destruct (shuffle_loop_Done Hrange (rand_New now) d) as (cs' & Hrun & Hp).
    exists cs'. split; [done|]. split; [done|].
    unfold Size, len. simpl. by rewrite Hp.
  - destruct (shuffle_loop_Done Hrange (rand_New seed) d) as (cs' & Hrun & Hp).
    exists cs'. split; [done|]. split; [done|].
    unfold Size, len. simpl. by rewrite Hp.
Qed.

Lemma Shuffle_Permutation_witness :
  (exists cs' : list Card,
     @Shuffle lcg 1700000000000000000 NewDeck = Done (tt, {| cards := cs' |})
     /\ cs' ≡ₚ cards NewDeck
     /\ Size {| cards := cs' |} = Size NewDeck)
  /\ (exists cs' : list Card,
        @ShuffleWithSeed lcg 42 NewDeck = Done (tt, {| cards := cs' |})
        /\ cs' ≡ₚ cards NewDeck
        /\ Size {| cards := cs' |} = Size NewDeck).
Proof.
  exact (@Shuffle_Permutation lcg 1700000000000000000 42 NewDeck lcg_range).
Defined.

(** C7. [PeekN n] fails with the negative-count error when [n < 0], fails
    with the not-enough-cards error when [n > Size()], and otherwise
    returns the first [n] cards in order (no card when [n = 0]), built by
    [make] and [copy]; in every case it returns and the deck is as before. *)
Theorem PeekN_spec (d : Deck) (n : Z) :
  (n < 0 ->
   PeekN n d
   = Done ((nil_slice,
            errors_New "cannot peek at negative number of cards"), d))
  /\ (n > Size d ->
      PeekN n d
      = Done ((nil_slice, errors_New "not enough cards in deck"), d))
  /\ (0 <= n <= Size d ->
      PeekN n d = Done ((take (Z.to_nat n) (cards d), nil), d))
  /\ (n = 0 -> PeekN n d = Done (([], nil), d))
  /\ (exists r : list Card * error, PeekN n d = Done (r, d)).
Proof.
  split; [apply PeekN_negative|]. split; [apply PeekN_too_many|].
  split; [apply PeekN_ok|]. split.
  - intros ->. rewrite PeekN_ok; [done|]. pose proof (len_nonneg (cards d)).
    unfold Size. lia.
  - destruct (decide (n < 0)) as [Hneg|Hpos].
    { eexists. by apply PeekN_negative. }
    destruct (decide (n > Size d)) as [Hbig|Hfit].
    { eexists. by apply PeekN_too_many. }
    eexists. apply PeekN_ok. lia.
Qed.

Lemma PeekN_spec_witness :
  ((-1) < 0
   /\ PeekN (-1) NewDeck
      = Done ((nil_slice,
               errors_New "cannot peek at negative number of cards"),
              NewDeck))
  /\ (53 > Size NewDeck
      /\ PeekN 53 NewDeck
         = Done ((nil_slice, errors_New "not enough cards in deck"), NewDeck))
  /\ (0 <= 2 <= Size NewDeck
      /\ PeekN 2 NewDeck
         = Done ((take (Z.to_nat 2) (cards NewDeck), nil), NewDeck))
  /\ PeekN 0 NewDeck = Done (([], nil), NewDeck).
Proof.
  assert (H53 : 53 > Size NewDeck) by (vm_compute; reflexivity).
  assert (H2 : 0 <= 2 <= Size NewDeck) by (vm_compute; split; discriminate).
  split; [|split; [|split]].
  - split; [lia|]. exact (proj1 (PeekN_spec NewDeck (-1)) ltac:(lia)).
  - split; [exact H53|].
    exact (proj1 (proj2 (PeekN_spec NewDeck 53)) H53).
  - split; [exact H2|].
    exact (proj1 (proj2 (proj2 (PeekN_spec NewDeck 2))) H2).
  - exact (proj1 (proj2 (proj2 (proj2 (PeekN_spec NewDeck 0)))) eq_refl).
Defined.

(** C8. [Filter p] returns a new deck holding exactly the cards of the
    receiver that satisfy [p], in their original relative order: every card
    of the result satisfies [p], the result is a subsequence of the
    receiver, its size is the number of matching cards; the receiver is as
    before. *)
Theorem Filter_spec (p : Card -> bool) (d : Deck) :
  exists d' : Deck,
    Filter p d = Done (d', d)
    /\ cards d' = List.filter p (cards d)
    /\ Forall (fun c => p c = true) (cards d')
    /\ sublist (cards d') (cards d)
    /\ (forall c : Card, c ∈ cards d' <-> c ∈ cards d /\ p c = true)
    /\ Size d' = Z.of_nat (count_matching p (cards d)).
Proof.
  exists {| cards := List.filter p (cards d) |}. simpl.
  split; [apply Filter_Done|]. split; [done|].
  split; [|split; [|split]].
  - apply Forall_forall. intros c Hc.
    apply list_elem_of_In, filter_In in Hc. tauto.
  - apply filter_sublist.
  - intros c. rewrite !list_elem_of_In. apply filter_In.
  - unfold Size, len. simpl. by rewrite length_filter_count.
Qed.

Lemma Filter_spec_witness :
  exists d' : Deck,
    Filter (fun c => bool_decide (card_Suit c = Hearts)) NewDeck
    = Done (d', NewDeck)
    /\ Size d' = 13
    /\ (NewCard Hearts Queen ∈ cards NewDeck
        /\ bool_decide (card_Suit (NewCard Hearts Queen) = Hearts) = true
        /\ NewCard Hearts Queen ∈ cards d').
Proof.
  destruct (Filter_spec (fun c => bool_decide (card_Suit c = Hearts)) NewDeck)
    as (d' & Hrun & _ & _ & _ & Hin & Hsize).
  assert (Hq : NewCard Hearts Queen ∈ cards NewDeck)
    by (apply (bool_decide_unpack _); vm_compute; exact I).
  exists d'. split; [exact Hrun|]. split; [exact Hsize|].
  split; [exact Hq|]. split; [reflexivity|].
  exact (proj2 (Hin (NewCard Hearts Queen)) (conj Hq eq_refl)).
Defined.

(** C9. When [Deal] or [Peek] fails, which they do on the empty deck, the
    card returned with the error is the zero value [Card{}]: suit Spades
    with rank 0.  Rank 0 is none of the thirteen ranks, it displays as
    "Unknown" and "?", and no card carrying one of the thirteen ranks equals
    the zero card. *)
Theorem empty_deck_zero_card (d : Deck) :
  (forall (card : Card) (e : string) (d' : Deck),
     Deal d = Done ((card, errors_New e), d') \/
     Peek d = Done ((card, errors_New e), d') ->
     card = zeroCard /\ Size d = 0)
  /\ (Size d = 0 ->
      Deal d = Done ((zeroCard, errors_New "cannot deal from empty deck"), d)
      /\ Peek d
         = Done ((zeroCard, errors_New "cannot peek at empty deck"), d))
  /\ zeroCard = NewCard Spades 0
  /\ (card_Rank zeroCard ∉ ranks)
  /\ Rank_String (card_Rank zeroCard) = "Unknown"
  /\ Rank_Symbol (card_Rank zeroCard) = "?"
  /\ Card_String zeroCard = "Unknown of Spades"
  /\ (forall cs : list Card,
        Forall (fun c => card_Rank c ∈ ranks) cs -> zeroCard ∉ cs).
Proof.
  assert (Hz : card_Rank zeroCard ∉ ranks).
  { intros Hin. enum Hin; discriminate. }
  split; [|split; [|split; [|split; [|split; [|split; [|split]]]]]];
    try reflexivity; try done.
  - intros card e d' Hfail. destruct d as [[|c cs]].
    + rewrite Deal_nil, Peek_nil in Hfail.
      by destruct Hfail as [[= <- _ _]|[= <- _ _]].
    + rewrite Deal_cons, Peek_cons in Hfail.
      by destruct Hfail as [?|?].
  - destruct d as [[|c cs]]; [done|]. unfold Size. simpl.
    rewrite len_cons. pose proof (len_nonneg cs). lia.
  - intros cs Hvalid Hin. eapply Forall_forall in Hvalid; [|exact Hin].
    done.
Qed.

Lemma empty_deck_zero_card_witness :
  (Deal NewEmptyDeck
   = Done ((zeroCard, errors_New "cannot deal from empty deck"),
           NewEmptyDeck)
   /\ zeroCard = zeroCard /\ Size NewEmptyDeck = 0)
  /\ (Deal NewEmptyDeck
      = Done ((zeroCard, errors_New "cannot deal from empty deck"),
              NewEmptyDeck)
      /\ Peek NewEmptyDeck
         = Done ((zeroCard, errors_New "cannot peek at empty deck"),
                 NewEmptyDeck))
  /\ (Forall (fun c => card_Rank c ∈ ranks) (cards NewDeck)
      /\ zeroCard ∉ cards NewDeck).
Proof.
  destruct (empty_deck_zero_card NewEmptyDeck)
    as (Hfail & Hempty & _ & _ & _ & _ & _ & Hvalid).
  assert (Hnew : Forall (fun c => card_Rank c ∈ ranks) (cards NewDeck))
    by (apply (bool_decide_unpack _); vm_compute; exact I).
  split; [|split].
  - split; [reflexivity|].
    exact (Hfail zeroCard _ NewEmptyDeck (or_introl eq_refl)).
  - exact (Hempty eq_refl).
  - split; [exact Hnew | exact (Hvalid _ Hnew)].
Defined.

(** C10. The counts of [CountBySuit] add up to [Size()], so do those of
    [CountByRank], and every key present in either map has a strictly
    positive count. *)
Theorem counts_total (d : Deck) :
  sum_values (CountBySuit d) = Size d
  /\ sum_values (CountByRank d) = Size d
  /\ (forall k v : Z, CountBySuit d !! k = Some v -> 0 < v)
  /\ (forall k v : Z, CountByRank d !! k = Some v -> 0 < v).
Proof.
  unfold CountBySuit, CountByRank, Size.
  rewrite !count_loop_sum, sum_values_empty.
  split; [lia|]. split; [lia|].
  split; apply count_loop_positive; intros k v; by rewrite lookup_empty.
Qed.

Lemma counts_total_witness :
  (CountBySuit NewDeck !! Clubs = Some 13 /\ 0 < 13)
  /\ (CountByRank NewDeck !! King = Some 4 /\ 0 < 4).
Proof.
  destruct (counts_total NewDeck) as (_ & _ & Hsuit & Hrank).
  assert (Hs : CountBySuit NewDeck !! Clubs = Some 13)
    by (vm_compute; reflexivity).
  assert (Hr : CountByRank NewDeck !! King = Some 4)
    by (vm_compute; reflexivity).
  split.
  - split; [exact Hs | exact (Hsuit Clubs 13 Hs)].
  - split; [exact Hr | exact (Hrank King 4 Hr)].
Defined.

(** * Further properties of the package *)

(** ** Dealing *)

(** X1. [DealN n] fails with the negative-count error when [n < 0] and with
    the not-enough-cards error when [n > Size()], both times with no hand
    and the deck as before; otherwise it cuts the deck in two: the hand is
    the first [n] cards, the deck keeps the rest in order. *)
Theorem DealN_spec (d : Deck) (n : Z) :
  (n < 0 ->
   DealN n d
   = Done ((nil_slice, errors_New "cannot deal negative number of cards"),
           d))
  /\ (n > Size d ->
      DealN n d
      = Done ((nil_slice, errors_New "not enough cards in deck"), d))
  /\ (0 <= n <= Size d ->
      exists hand rest : list Card,
        DealN n d = Done ((hand, nil), {| cards := rest |})
        /\ hand ++ rest = cards d
        /\ len hand = n
        /\ Size {| cards := rest |} = Size d - n).
Proof.
  split; [apply DealN_negative|]. split; [apply DealN_too_many|].
  intros Hn. exists (take (Z.to_nat n) (cards d)), (drop (Z.to_nat n) (cards d)).
  split; [by apply DealN_ok|]. split; [apply take_drop|].
  unfold Size, len in *. simpl. rewrite length_take, length_drop. lia.
Qed.

Lemma DealN_spec_witness :
  ((-1) < 0
   /\ DealN (-1) NewDeck
      = Done ((nil_slice,
               errors_New "cannot deal negative number of cards"), NewDeck))
  /\ (53 > Size NewDeck
      /\ DealN 53 NewDeck
         = Done ((nil_slice, errors_New "not enough cards in deck"), NewDeck))
  /\ (0 <= 5 <= Size NewDeck
      /\ exists hand rest : list Card,
           DealN 5 NewDeck = Done ((hand, nil), {| cards := rest |})
           /\ hand ++ rest = cards NewDeck
           /\ len hand = 5
           /\ Size {| cards := rest |} = Size NewDeck - 5).
Proof.
  assert (H53 : 53 > Size NewDeck) by (vm_compute; reflexivity).
  assert (H5 : 0 <= 5 <= Size NewDeck) by (vm_compute; split; discriminate).
  split; [|split].
  - split; [lia|]. exact (proj1 (DealN_spec NewDeck (-1)) ltac:(lia)).
  - split; [exact H53|]. exact (proj1 (proj2 (DealN_spec NewDeck 53)) H53).
  - split; [exact H5|]. exact (proj2 (proj2 (DealN_spec NewDeck 5)) H5).
Defined.

(** X2. [PeekN n] shows what [DealN n] would return: for every deck and every
    [n] the two return the same cards, and one fails exactly when the other
    does.  For [n >= 0] the errors are equal; for [n < 0] the two messages
    differ.  [PeekN] leaves the deck as it is. *)
Theorem PeekN_previews_DealN (d : Deck) (n : Z) :
  exists (hand : list Card) (e1 e2 : error) (d' : Deck),
    PeekN n d = Done ((hand, e1), d)
    /\ DealN n d = Done ((hand, e2), d')
    /\ (e1 = nil <-> e2 = nil)
    /\ (0 <= n -> e1 = e2)
    /\ (n < 0 ->
        e1 = errors_New "cannot peek at negative number of cards"
        /\ e2 = errors_New "cannot deal negative number of cards").
Proof.
  destruct (decide (n < 0)) as [Hneg|Hpos].
  { eexists _, _, _, _. split; [by apply PeekN_negative|].
    split; [by apply DealN_negative|]. split; [done|]. split; [lia|done]. }
  destruct (decide (n > Size d)) as [Hbig|Hfit].
  { eexists _, _, _, _. split; [by apply PeekN_too_many|].
    split; [by apply DealN_too_many|]. split; [done|]. split; [done|lia]. }
  eexists _, _, _, _. split; [apply PeekN_ok; lia|].
  split; [apply DealN_ok; lia|]. split; [done|]. split; [done|lia].
Qed.

Lemma PeekN_previews_DealN_witness :
  exists (hand : list Card) (e1 e2 : error) (d' : Deck),
    PeekN 5 NewDeck = Done ((hand, e1), NewDeck)
    /\ DealN 5 NewDeck = Done ((hand, e2), d')
    /\ 0 <= 5 /\ e1 = e2.
Proof.
  destruct (PeekN_previews_DealN NewDeck 5)
    as (hand & e1 & e2 & d' & Hp & Hd & _ & Hsame & _).
  exists hand, e1, e2, d'. split; [exact Hp|]. split; [exact Hd|].
  split; [lia|]. exact (Hsame ltac:(lia)).
Defined.

(** X3. Dealing [a] cards and then [b] cards is dealing [a + b] cards: the
    two hands, one after the other, are the hand of the single call, and
    the deck that is left is the same. *)
Theorem DealN_DealN (d : Deck) (a b : Z) :
  0 <= a -> 0 <= b -> a + b <= Size d ->
  exists (h1 h2 : list Card) (d1 d2 : Deck),
    DealN a d = Done ((h1, nil), d1)
    /\ DealN b d1 = Done ((h2, nil), d2)
    /\ DealN (a + b) d = Done ((h1 ++ h2, nil), d2).
Proof.
  intros Ha Hb Hab.
  exists (take (Z.to_nat a) (cards d)),
         (take (Z.to_nat b) (drop (Z.to_nat a) (cards d))),
         {| cards := drop (Z.to_nat a) (cards d) |},
         {| cards := drop (Z.to_nat b) (drop (Z.to_nat a) (cards d)) |}.
  split; [apply DealN_ok; lia|]. split.
  - apply DealN_ok. unfold Size, len in *. simpl. rewrite length_drop. lia.
  - rewrite DealN_ok by lia. rewrite take_take_drop, drop_drop.
    by replace (Z.to_nat (a + b)) with (Z.to_nat a + Z.to_nat b)%nat by lia.
Qed.

Lemma DealN_DealN_witness :
  0 <= 5 /\ 0 <= 2 /\ 5 + 2 <= Size NewDeck
  /\ exists (h1 h2 : list Card) (d1 d2 : Deck),
       DealN 5 NewDeck = Done ((h1, nil), d1)
       /\ DealN 2 d1 = Done ((h2, nil), d2)
       /\ DealN (5 + 2) NewDeck = Done ((h1 ++ h2, nil), d2).
Proof.
  assert (H : 5 + 2 <= Size NewDeck) by (vm_compute; discriminate).
  split; [lia|]. split; [lia|]. split; [exact H|].
  exact (DealN_DealN NewDeck 5 2 ltac:(lia) ltac:(lia) H).
Defined.

(** X4. [Deal] is [DealN 1] on a deck that has a card: one returns the card
    [c] and leaves [d'] exactly when the other returns the hand [[c]] and
    leaves [d'].  On the empty deck both fail, each with its own error. *)
Theorem Deal_is_DealN_1 (d : Deck) :
  (forall (c : Card) (d' : Deck),
     Deal d = Done ((c, nil), d') <-> DealN 1 d = Done (([c], nil), d'))
  /\ (Size d = 0 ->
      Deal d = Done ((zeroCard, errors_New "cannot deal from empty deck"), d)
      /\ DealN 1 d
         = Done ((nil_slice, errors_New "not enough cards in deck"), d)).
Proof.
  destruct d as [[|c0 cs]].
  - split.
    + intros c d'. rewrite Deal_nil, DealN_too_many by (vm_compute; done).
      split; discriminate.
    + intros _. split; [apply Deal_nil|].
      apply DealN_too_many. vm_compute. done.
  - split.
    + intros c d'. rewrite Deal_cons, DealN_ok.
      * simpl. rewrite drop_0, take_0. split; by intros [= -> <-].
      * unfold Size. simpl. rewrite len_cons. pose proof (len_nonneg cs). lia.
    + unfold Size. simpl. rewrite len_cons. pose proof (len_nonneg cs). lia.
Qed.

Lemma Deal_is_DealN_1_witness :
  Size NewEmptyDeck = 0
  /\ Deal NewEmptyDeck
     = Done ((zeroCard, errors_New "cannot deal from empty deck"),
             NewEmptyDeck)
  /\ DealN 1 NewEmptyDeck
     = Done ((nil_slice, errors_New "not enough cards in deck"),
             NewEmptyDeck).
Proof.
  split; [reflexivity|].
  exact (proj2 (Deal_is_DealN_1 NewEmptyDeck) eq_refl).
Defined.

(** X5. Dealing [n] cards and putting the hand back with [AddCards] moves
    the first [n] cards to the bottom: the deck holds the same cards, has
    its former size, and is the former deck itself when [n] is [0] or the
    whole deck was dealt. *)
Theorem DealN_AddCards (d : Deck) (n : Z) :
  0 <= n <= Size d ->
  exists (hand : list Card) (d1 d2 : Deck),
    DealN n d = Done ((hand, nil), d1)
    /\ AddCards hand d1 = Done (tt, d2)
    /\ cards d2 = drop (Z.to_nat n) (cards d) ++ take (Z.to_nat n) (cards d)
    /\ cards d2 ≡ₚ cards d
    /\ Size d2 = Size d
    /\ (n = 0 \/ n = Size d -> d2 = d).
Proof.
  intros Hn. destruct d as [cs]. unfold Size in *. simpl in *.
  exists (take (Z.to_nat n) cs), {| cards := drop (Z.to_nat n) cs |},
         {| cards := drop (Z.to_nat n) cs ++ take (Z.to_nat n) cs |}.
  split; [by apply DealN_ok|]. split; [done|]. split; [done|].
  assert (Hp : drop (Z.to_nat n) cs ++ take (Z.to_nat n) cs ≡ₚ cs).
  { rewrite Permutation_app_comm. by rewrite take_drop. }
  split; [done|]. split; [unfold len; simpl; by rewrite Hp|].
  intros [->| ->]; f_equal.
  - simpl. rewrite drop_0, take_0. apply app_nil_r.
  - unfold len. rewrite Nat2Z.id, drop_all, firstn_all. done.
Qed.

Lemma DealN_AddCards_witness :
  0 <= 52 <= Size NewDeck
  /\ (52 = 0 \/ 52 = Size NewDeck)
  /\ exists (hand : list Card) (d1 d2 : Deck),
       DealN 52 NewDeck = Done ((hand, nil), d1)
       /\ AddCards hand d1 = Done (tt, d2)
       /\ cards d2 ≡ₚ cards NewDeck
       /\ Size d2 = Size NewDeck
       /\ d2 = NewDeck.
Proof.
  assert (H52 : 0 <= 52 <= Size NewDeck)
    by (vm_compute; split; discriminate).
  assert (Hall : 52 = 0 \/ 52 = Size NewDeck) by (right; reflexivity).
  split; [exact H52|]. split; [exact Hall|].
  destruct (DealN_AddCards NewDeck 52 H52)
    as (hand & d1 & d2 & Hd & Ha & _ & Hp & Hs & Hsame).
  exists hand, d1, d2.
  split; [exact Hd|]. split; [exact Ha|]. split; [exact Hp|].
  split; [exact Hs|]. exact (Hsame Hall).
Defined.

(** ** Looking for a card, removing it *)

(** Comparing the two fields is comparing the cards. *)
Lemma same_card (c card : Card) :
  bool_decide (card_Suit c = card_Suit card)
  && bool_decide (card_Rank c = card_Rank card)
  = bool_decide (c = card).
Proof.
  destruct c as [s r], card as [s' r']. simpl.
  destruct (decide (s = s')) as [->|Hs], (decide (r = r')) as [->|Hr].
  - by rewrite !bool_decide_eq_true_2.
  - rewrite (bool_decide_eq_false_2 (r = r')) by done.
    rewrite (bool_decide_eq_false_2 (_ = mkCard _ _)) by congruence.
    apply andb_false_r.
  - rewrite (bool_decide_eq_false_2 (s = s')) by done.
    by rewrite (bool_decide_eq_false_2 (_ = mkCard _ _)) by congruence.
  - rewrite (bool_decide_eq_false_2 (s = s')) by done.
    by rewrite (bool_decide_eq_false_2 (_ = mkCard _ _)) by congruence.
Qed.

Lemma Contains_true (card : Card) (d : Deck) :
  Contains card d = true <-> card ∈ cards d.
Proof.
  unfold Contains. rewrite existsb_exists. split.
  - intros (c & Hin & Hc). rewrite same_card in Hc.
    apply bool_decide_eq_true in Hc as ->. by apply list_elem_of_In.
  - intros Hin. exists card. split; [by apply list_elem_of_In|].
    rewrite same_card. by apply bool_decide_eq_true.
Qed.

Lemma Contains_false (card : Card) (d : Deck) :
  Contains card d = false <-> card ∉ cards d.
Proof.
  rewrite <- Contains_true. by destruct (Contains card d).
Qed.

Lemma copies_app (card : Card) (l1 l2 : list Card) :
  copies card (l1 ++ l2) = (copies card l1 + copies card l2)%nat.
Proof.
  unfold copies. induction l1 as [|c l1 IH]; simpl; [done|].
  rewrite IH. lia.
Qed.

Lemma copies_0 (card : Card) (cs : list Card) :
  copies card cs = 0%nat <-> card ∉ cs.
Proof.
  unfold copies. induction cs as [|c cs IH]; simpl.
  - split; [intros _; apply not_elem_of_nil|done].
  - rewrite not_elem_of_cons, <- IH. case_bool_decide; subst; split.
    + intros; lia.
    + intros [? _]. done.
    + intros; split; [congruence|lia].
    + intros [_ ?]. lia.
Qed.

Lemma copies_cons_same (card : Card) (cs : list Card) :
  copies card (card :: cs) = S (copies card cs).
Proof. unfold copies. simpl. by rewrite bool_decide_eq_true_2. Qed.

Lemma copies_cons_other (card c : Card) (cs : list Card) :
  c <> card -> copies card (c :: cs) = copies card cs.
Proof. intros Hne. unfold copies. simpl. by rewrite bool_decide_eq_false_2. Qed.

(** Without a match the loop runs to its end and touches nothing. *)
Lemma RemoveCard_range_absent (card : Card) (rest : list Card) :
  card ∉ rest ->
  forall (i : Z) (d : Deck), RemoveCard_range card i rest d = Done (false, d).
Proof.
  induction rest as [|c rest IH]; intros Hnot i d; [done|].
  apply not_elem_of_cons in Hnot as [Hne Hnot]. simpl.
  rewrite same_card, bool_decide_eq_false_2 by done. by apply IH.
Qed.

(** The first match is cut out. *)
Lemma RemoveCard_range_first (card : Card) (l1 l2 : list Card) :
  card ∉ l1 ->
  forall pre : list Card,
  RemoveCard_range card (len pre) (l1 ++ card :: l2)
    {| cards := pre ++ l1 ++ card :: l2 |}
  = Done (true, {| cards := pre ++ l1 ++ l2 |}).
Proof.
  induction l1 as [|c l1 IH]; intros Hnot pre; simpl.
  - rewrite same_card, bool_decide_eq_true_2 by done. go_steps.
    rewrite (bind_lift _ _ _ pre).
    2:{ rewrite slice_to_Done.
        - unfold len. by rewrite Nat2Z.id, take_app_length.
        - rewrite len_app, len_cons. pose proof (len_nonneg pre).
          pose proof (len_nonneg l2). lia. }
    rewrite (bind_lift _ _ _ l2).
    2:{ rewrite slice_from_Done.
        - unfold len.
          replace (Z.to_nat (Z.of_nat (length pre) + 1)) with (S (length pre))
            by lia.
          f_equal. rewrite drop_app_ge by lia.
          by replace (S (length pre) - length pre)%nat with 1%nat by lia.
        - rewrite len_app, len_cons. pose proof (len_nonneg pre).
          pose proof (len_nonneg l2). lia. }
    by go_steps.
  - apply not_elem_of_cons in Hnot as [Hne Hnot].
    rewrite same_card, bool_decide_eq_false_2 by done.
    replace (len pre + 1) with (len (pre ++ [c]))
      by (rewrite len_app; reflexivity).
    specialize (IH Hnot (pre ++ [c])).
    rewrite <- !app_assoc in IH. apply IH.
Qed.

Lemma RemoveCard_absent (card : Card) (d : Deck) :
  card ∉ cards d -> RemoveCard card d = Done (false, d).
Proof.
  intros Hnot. unfold RemoveCard. go_steps.
  by apply RemoveCard_range_absent.
Qed.

Lemma RemoveCard_first (card : Card) (l1 l2 : list Card) :
  card ∉ l1 ->
  RemoveCard card {| cards := l1 ++ card :: l2 |}
  = Done (true, {| cards := l1 ++ l2 |}).
Proof.
  intros Hnot. unfold RemoveCard. go_steps.
  apply (RemoveCard_range_first card l1 l2 Hnot []).
Qed.

(** X6. [Contains card] is [true] exactly when the deck holds, at some index,
    a card with the suit and the rank of [card]. *)
Theorem Contains_membership (card : Card) (d : Deck) :
  Contains card d = true
  <-> exists (i : Z) (c : Card),
        index (cards d) i = Done c
        /\ card_Suit c = card_Suit card /\ card_Rank c = card_Rank card.
Proof.
  rewrite Contains_true, list_elem_of_lookup. split.
  - intros [i Hi]. exists (Z.of_nat i), card. split; [|done].
    by apply index_Done.
  - intros (i & [s r] & Hi & Hs & Hr). apply index_inv in Hi as [_ Hi].
    exists (Z.to_nat i). destruct card. simpl in *. by subst.
Qed.

(** X7. [RemoveCard card] returns what [Contains card] says.  If the deck
    does not hold the card it returns [false] and the deck is as before; if
    it does, it returns [true] and cuts out the first occurrence, keeping
    all other cards in order, so the size goes down by one. *)
Theorem RemoveCard_spec (card : Card) (d : Deck) :
  (card ∉ cards d -> RemoveCard card d = Done (false, d))
  /\ (forall l1 l2 : list Card,
        cards d = l1 ++ card :: l2 -> card ∉ l1 ->
        RemoveCard card d = Done (true, {| cards := l1 ++ l2 |}))
  /\ (exists d' : Deck,
        RemoveCard card d = Done (Contains card d, d')
        /\ Size d' = Size d - (if Contains card d then 1 else 0)).
Proof.
  split; [apply RemoveCard_absent|]. split.
  - intros l1 l2 Hd Hnot. destruct d as [cs]. simpl in Hd. subst cs.
    by apply RemoveCard_first.
  - destruct (Contains card d) eqn:E.
    + apply Contains_true, list_elem_of_split_l in E as (l1 & l2 & Hd & Hnot).
      exists {| cards := l1 ++ l2 |}. destruct d as [cs]. simpl in Hd.
      subst cs. split; [by apply RemoveCard_first|].
      unfold Size. simpl. rewrite !len_app, len_cons. lia.
    + apply Contains_false in E. exists d.
      split; [by apply RemoveCard_absent|lia].
Qed.

Lemma RemoveCard_spec_witness :
  ((NewCard Hearts Ace ∉ cards NewEmptyDeck)
   /\ RemoveCard (NewCard Hearts Ace) NewEmptyDeck
      = Done (false, NewEmptyDeck))
  /\ (cards {| cards := [NewCard Spades Two; NewCard Hearts Ace;
                         NewCard Clubs Ten; NewCard Hearts Ace] |}
      = [NewCard Spades Two] ++ NewCard Hearts Ace
        :: [NewCard Clubs Ten; NewCard Hearts Ace]
      /\ (NewCard Hearts Ace ∉ [NewCard Spades Two])
      /\ RemoveCard (NewCard Hearts Ace)
           {| cards := [NewCard Spades Two; NewCard Hearts Ace;
                        NewCard Clubs Ten; NewCard Hearts Ace] |}
         = Done (true,
                 {| cards := [NewCard Spades Two]
                             ++ [NewCard Clubs Ten; NewCard Hearts Ace] |})).
Proof.
  assert (H0 : NewCard Hearts Ace ∉ cards NewEmptyDeck)
    by (apply (bool_decide_unpack _); vm_compute; exact I).
  assert (H1 : NewCard Hearts Ace ∉ [NewCard Spades Two])
    by (apply (bool_decide_unpack _); vm_compute; exact I).
  split.
  - split; [exact H0|].
    exact (proj1 (RemoveCard_spec (NewCard Hearts Ace) NewEmptyDeck) H0).
  - split; [reflexivity|]. split; [exact H1|].
    exact (proj1 (proj2 (RemoveCard_spec (NewCard Hearts Ace)
             {| cards := [NewCard Spades Two; NewCard Hearts Ace;
                          NewCard Clubs Ten; NewCard Hearts Ace] |}))
             [NewCard Spades Two] [NewCard Clubs Ten; NewCard Hearts Ace]
             eq_refl H1).
Defined.

(** X8. [RemoveCard card] takes away one copy at most: the number of copies
    of [card] goes down by one if there was one and stays [0] otherwise,
    the number of copies of every other card stays, and the cards that are
    left keep their order. *)
Theorem RemoveCard_copies (card : Card) (d : Deck) :
  exists d' : Deck,
    RemoveCard card d = Done (Contains card d, d')
    /\ copies card (cards d') = (copies card (cards d) - 1)%nat
    /\ (forall other : Card,
          other <> card ->
          copies other (cards d') = copies other (cards d))
    /\ sublist (cards d') (cards d).
Proof.
  destruct (Contains card d) eqn:E.
  - apply Contains_true, list_elem_of_split_l in E as (l1 & l2 & Hd & Hnot).
    exists {| cards := l1 ++ l2 |}. destruct d as [cs]. simpl in *. subst cs.
    split; [by apply RemoveCard_first|]. split; [|split].
    + rewrite !copies_app, copies_cons_same. lia.
    + intros other Hne. rewrite !copies_app.
      by rewrite (copies_cons_other other card) by done.
    + apply sublist_app; [done|]. by apply sublist_cons.
  - apply Contains_false in E. exists d.
    split; [by apply RemoveCard_absent|]. split; [|done].
    apply copies_0 in E. lia.
Qed.

Lemma RemoveCard_copies_witness :
  exists d' : Deck,
    RemoveCard (NewCard Hearts Ace) NewDeck = Done (true, d')
    /\ NewCard Hearts Two <> NewCard Hearts Ace
    /\ copies (NewCard Hearts Two) (cards d')
       = copies (NewCard Hearts Two) (cards NewDeck).
Proof.
  destruct (RemoveCard_copies (NewCard Hearts Ace) NewDeck)
    as (d' & Hrun & _ & Hother & _).
  assert (Hne : NewCard Hearts Two <> NewCard Hearts Ace) by discriminate.
  exists d'. split; [exact Hrun|]. split; [exact Hne|].
  exact (Hother (NewCard Hearts Two) Hne).
Defined.

(** X9. When the deck holds exactly one copy of [card], [RemoveCard card]
    returns [true] and makes the deck one card smaller; after that the deck
    no longer contains the card, and a second [RemoveCard card] returns
    [false] and changes nothing. *)
Theorem RemoveCard_once (card : Card) (d : Deck) :
  copies card (cards d) = 1%nat ->
  exists d' : Deck,
    RemoveCard card d = Done (true, d')
    /\ Size d' = Size d - 1
    /\ Contains card d' = false
    /\ RemoveCard card d' = Done (false, d').
Proof.
  intros Hone.
  assert (Hin : card ∈ cards d).
  { destruct (decide (card ∈ cards d)) as [|Hnot]; [done|].
    apply copies_0 in Hnot. lia. }
  apply list_elem_of_split_l in Hin as (l1 & l2 & Hd & Hnot).
  destruct d as [cs]. simpl in *. subst cs.
  rewrite copies_app, copies_cons_same in Hone.
  assert (Hnot' : card ∉ l1 ++ l2).
  { rewrite elem_of_app. intros [?|Hin]; [done|].
    revert Hin. apply copies_0. lia. }
  exists {| cards := l1 ++ l2 |}.
  split; [by apply RemoveCard_first|]. split; [|split].
  - unfold Size. simpl. rewrite !len_app, len_cons. lia.
  - by apply Contains_false.
  - by apply RemoveCard_absent.
Qed.

Lemma RemoveCard_once_witness :
  copies (NewCard Hearts Ace) (cards NewDeck) = 1%nat
  /\ exists d' : Deck,
       RemoveCard (NewCard Hearts Ace) NewDeck = Done (true, d')
       /\ Size d' = Size NewDeck - 1
       /\ Contains (NewCard Hearts Ace) d' = false
       /\ RemoveCard (NewCard Hearts Ace) d' = Done (false, d').
Proof.
  assert (H : copies (NewCard Hearts Ace) (cards NewDeck) = 1%nat)
    by (vm_compute; reflexivity).
  split; [exact H|]. exact (RemoveCard_once (NewCard Hearts Ace) NewDeck H).
Defined.

(** ** Adding and inserting *)

(** X10. A successful [InsertCard card position] puts [card] at index
    [position], leaves the cards before it where they were and moves every
    card from [position] on one place back; the size grows by one. *)
Theorem InsertCard_spec (card : Card) (position : Z) (d : Deck) :
  0 <= position <= Size d ->
  exists d' : Deck,
    InsertCard card position d = Done (nil, d')
    /\ Size d' = Size d + 1
    /\ index (cards d') position = Done card
    /\ (forall i : Z, 0 <= i < position ->
          index (cards d') i = index (cards d) i)
    /\ (forall i : Z, position <= i < Size d ->
          index (cards d') (i + 1) = index (cards d) i).
Proof.
  intros Hp. destruct d as [cs]. unfold Size in *. simpl in *.
  set (p := Z.to_nat position).
  assert (Hlen : (p <= length cs)%nat) by (unfold len in Hp; lia).
  exists {| cards := take p cs ++ card :: drop p cs |}.
  split; [by apply InsertCard_ok|]. simpl.
  assert (Hl : len (take p cs ++ card :: drop p cs) = len cs + 1).
  { unfold len. rewrite length_app, length_take. simpl.
    rewrite length_drop. lia. }
  split; [done|]. split; [|split].
  - replace position with (Z.of_nat p) by lia. apply index_Done.
    rewrite lookup_app_r by (rewrite length_take; lia).
    rewrite length_take.
    by replace (p - p `min` length cs)%nat with 0%nat by lia.
  - intros i Hi. unfold index. rewrite Hl.
    rewrite !decide_True by lia.
    rewrite lookup_app_l by (rewrite length_take; lia).
    by rewrite lookup_take_lt by lia.
  - intros i Hi. unfold index. rewrite Hl.
    rewrite !decide_True by lia.
    rewrite lookup_app_r by (rewrite length_take; lia).
    rewrite length_take.
    replace (Z.to_nat (i + 1) - p `min` length cs)%nat
      with (S (Z.to_nat i - p)) by lia.
    simpl. rewrite lookup_drop.
    by replace (p + (Z.to_nat i - p))%nat with (Z.to_nat i) by lia.
Qed.

Lemma InsertCard_spec_witness :
  0 <= 10 <= Size NewDeck
  /\ exists d' : Deck,
       InsertCard zeroCard 10 NewDeck = Done (nil, d')
       /\ Size d' = Size NewDeck + 1
       /\ index (cards d') 10 = Done zeroCard
       /\ (0 <= 3 < 10 /\ index (cards d') 3 = index (cards NewDeck) 3)
       /\ (10 <= 20 < Size NewDeck
           /\ index (cards d') (20 + 1) = index (cards NewDeck) 20).
Proof.
  assert (H10 : 0 <= 10 <= Size NewDeck)
    by (vm_compute; split; discriminate).
  assert (H20 : 10 <= 20 < Size NewDeck)
    by (vm_compute; split; [discriminate|reflexivity]).
  split; [exact H10|].
  destruct (InsertCard_spec zeroCard 10 NewDeck H10)
    as (d' & Hrun & Hsize & Hat & Hbefore & Hafter).
  exists d'. split; [exact Hrun|]. split; [exact Hsize|].
  split; [exact Hat|]. split.
  - split; [lia|]. exact (Hbefore 3 ltac:(lia)).
  - split; [exact H20|]. exact (Hafter 20 H20).
Defined.

(** X11. [InsertCard card 0] never fails; it puts the card on top: the next
    [Peek] shows it, and the next [Deal] returns it and leaves the deck as
    it was before the insertion. *)
Theorem InsertCard_top (card : Card) (d : Deck) :
  exists d' : Deck,
    InsertCard card 0 d = Done (nil, d')
    /\ Size d' = Size d + 1
    /\ Peek d' = Done ((card, nil), d')
    /\ Deal d' = Done ((card, nil), d).
Proof.
  destruct d as [cs]. exists {| cards := card :: cs |}.
  split; [|split; [|split]].
  - rewrite InsertCard_ok.
    + reflexivity.
    + unfold Size. simpl. pose proof (len_nonneg cs). lia.
  - unfold Size. simpl. apply len_cons.
  - apply Peek_cons.
  - apply Deal_cons.
Qed.

(** X12. Inserting at position [Size()] is [AddCard]: both never fail and
    leave the same deck, with the card at the bottom. *)
Theorem InsertCard_bottom (card : Card) (d : Deck) :
  exists d' : Deck,
    InsertCard card (Size d) d = Done (nil, d')
    /\ AddCard card d = Done (tt, d')
    /\ index (cards d') (Size d) = Done card.
Proof.
  destruct d as [cs]. exists {| cards := cs ++ [card] |}.
  unfold Size. simpl. split; [|split; [done|]].
  - rewrite InsertCard_ok.
    + simpl. unfold len. by rewrite Nat2Z.id, firstn_all, drop_all.
    + unfold Size. simpl. pose proof (len_nonneg cs). lia.
  - apply index_Done. by rewrite lookup_app_r, Nat.sub_diag by lia.
Qed.

(** X13. Inserting and removing undo each other at the first occurrence.
    If [card] is not among the first [position] cards, [InsertCard card
    position] followed by [RemoveCard card] gives the deck back; and if the
    first occurrence of [card] is at index [len l1], [RemoveCard card]
    followed by [InsertCard card (len l1)] gives the deck back. *)
Theorem InsertCard_RemoveCard (card : Card) (d : Deck) :
  (forall position : Z,
     0 <= position <= Size d ->
     card ∉ take (Z.to_nat position) (cards d) ->
     exists d' : Deck,
       InsertCard card position d = Done (nil, d')
       /\ RemoveCard card d' = Done (true, d))
  /\ (forall l1 l2 : list Card,
        cards d = l1 ++ card :: l2 -> card ∉ l1 ->
        exists d' : Deck,
          RemoveCard card d = Done (true, d')
          /\ InsertCard card (len l1) d' = Done (nil, d)).
Proof.
  destruct d as [cs]. simpl. split.
  - intros position Hp Hnot.
    exists {| cards := take (Z.to_nat position) cs
                       ++ card :: drop (Z.to_nat position) cs |}.
    split; [by apply InsertCard_ok|].
    rewrite RemoveCard_first by done. by rewrite take_drop.
  - intros l1 l2 -> Hnot. exists {| cards := l1 ++ l2 |}.
    split; [by apply RemoveCard_first|].
    rewrite InsertCard_ok.
    + simpl. unfold len. by rewrite Nat2Z.id, take_app_length, drop_app_length.
    + unfold Size. simpl. rewrite len_app. pose proof (len_nonneg l1).
      pose proof (len_nonneg l2). lia.
Qed.

Lemma InsertCard_RemoveCard_witness :
  (0 <= 2 <= Size {| cards := [NewCard Spades Two; NewCard Clubs Ten;
                               NewCard Hearts Ace] |}
   /\ (NewCard Hearts Ace
       ∉ take (Z.to_nat 2) [NewCard Spades Two; NewCard Clubs Ten;
                            NewCard Hearts Ace])
   /\ exists d' : Deck,
        InsertCard (NewCard Hearts Ace) 2
          {| cards := [NewCard Spades Two; NewCard Clubs Ten;
                       NewCard Hearts Ace] |} = Done (nil, d')
        /\ RemoveCard (NewCard Hearts Ace) d'
           = Done (true, {| cards := [NewCard Spades Two; NewCard Clubs Ten;
                                      NewCard Hearts Ace] |}))
  /\ ((NewCard Hearts Ace ∉ [NewCard Spades Two; NewCard Clubs Ten])
      /\ exists d' : Deck,
           RemoveCard (NewCard Hearts Ace)
             {| cards := [NewCard Spades Two; NewCard Clubs Ten;
                          NewCard Hearts Ace] |} = Done (true, d')
           /\ InsertCard (NewCard Hearts Ace)
                (len [NewCard Spades Two; NewCard Clubs Ten]) d'
              = Done (nil, {| cards := [NewCard Spades Two; NewCard Clubs Ten;
                                        NewCard Hearts Ace] |})).
Proof.
  assert (Hp : 0 <= 2 <= Size {| cards := [NewCard Spades Two;
                NewCard Clubs Ten; NewCard Hearts Ace] |})
    by (vm_compute; split; discriminate).
  assert (Hnot : NewCard Hearts Ace
                 ∉ [NewCard Spades Two; NewCard Clubs Ten])
    by (apply (bool_decide_unpack _); vm_compute; exact I).
  split.
  - split; [exact Hp|]. split; [exact Hnot|].
    exact (proj1 (InsertCard_RemoveCard (NewCard Hearts Ace)
             {| cards := [NewCard Spades Two; NewCard Clubs Ten;
                          NewCard Hearts Ace] |}) 2 Hp Hnot).
  - split; [exact Hnot|].
    exact (proj2 (InsertCard_RemoveCard (NewCard Hearts Ace)
             {| cards := [NewCard Spades Two; NewCard Clubs Ten;
                          NewCard Hearts Ace] |})
             [NewCard Spades Two; NewCard Clubs Ten] [] eq_refl Hnot).
Defined.

(** X14. [AddCards] appends at the bottom and never fails: the size grows by
    the number of new cards, dealing the former size gives the former deck
    as the hand and leaves exactly the new cards, in their order.  Adding
    [a ++ b] is adding [a], then [b]; [AddCard c] is [AddCards [c]]. *)
Theorem AddCards_bottom (new : list Card) (d : Deck) :
  exists d' : Deck,
    AddCards new d = Done (tt, d')
    /\ Size d' = Size d + len new
    /\ DealN (Size d) d' = Done ((cards d, nil), {| cards := new |})
    /\ (forall a b : list Card,
          new = a ++ b ->
          exists d1 : Deck,
            AddCards a d = Done (tt, d1) /\ AddCards b d1 = Done (tt, d'))
    /\ (forall c : Card, new = [c] -> AddCard c d = Done (tt, d')).
Proof.
  destruct d as [cs]. exists {| cards := cs ++ new |}.
  split; [done|]. unfold Size. simpl. split; [apply len_app|].
  split; [|split].
  - rewrite DealN_ok.
    + simpl. unfold len. by rewrite Nat2Z.id, take_app_length, drop_app_length.
    + unfold Size. simpl. rewrite len_app. pose proof (len_nonneg cs).
      pose proof (len_nonneg new). lia.
  - intros a b ->. exists {| cards := cs ++ a |}. split; [done|].
    unfold AddCards. go_steps. by rewrite app_assoc.
  - by intros c ->.
Qed.

Lemma AddCards_bottom_witness :
  exists d' : Deck,
    AddCards [NewCard Spades Ten; NewCard Spades Jack] NewDeck = Done (tt, d')
    /\ [NewCard Spades Ten; NewCard Spades Jack]
       = [NewCard Spades Ten] ++ [NewCard Spades Jack]
    /\ exists d1 : Deck,
         AddCards [NewCard Spades Ten] NewDeck = Done (tt, d1)
         /\ AddCards [NewCard Spades Jack] d1 = Done (tt, d').
Proof.
  destruct (AddCards_bottom [NewCard Spades Ten; NewCard Spades Jack] NewDeck)
    as (d' & Hrun & _ & _ & Happ & _).
  exists d'. split; [exact Hrun|]. split; [reflexivity|].
  exact (Happ [NewCard Spades Ten] [NewCard Spades Jack] eq_refl).
Defined.

(** ** Building a deck and reading it back *)

(** X15. [NewDeckFromCards] takes any cards as they come, duplicates and
    non-standard cards included, and [Cards] gives them back in the same
    order; going the other way, the cards of a deck rebuild that deck.  The
    size of a deck is the length of what [Cards] returns. *)
Theorem NewDeckFromCards_Cards :
  (forall cs : list Card,
     exists d : Deck,
       NewDeckFromCards cs = Done d
       /\ Cards d = Done cs
       /\ Size d = len cs)
  /\ (forall d : Deck,
        exists cs : list Card,
          Cards d = Done cs
          /\ NewDeckFromCards cs = Done d
          /\ len cs = Size d).
Proof.
  split.
  - intros cs. exists {| cards := cs |}.
    split; [apply NewDeckFromCards_Done|]. split; [apply Cards_Done|done].
  - intros [cs]. exists cs.
    split; [apply Cards_Done|]. split; [apply NewDeckFromCards_Done|done].
Qed.

(** ** Colours, face cards and display strings *)

(** X16. No card is both red and black.  A card with one of the four suits
    is exactly one of the two, a card with any other suit is neither.  The
    face cards are the cards of rank Jack, Queen or King, whatever the
    suit. *)
Theorem Card_colour (c : Card) :
  (IsRed c && IsBlack c = false)
  /\ (card_Suit c ∈ suits -> IsRed c = negb (IsBlack c))
  /\ (card_Suit c ∉ suits -> IsRed c = false /\ IsBlack c = false)
  /\ (IsFaceCard c = true <-> card_Rank c ∈ [Jack; Queen; King]).
Proof.
  destruct c as [s r]. unfold IsRed, IsBlack, IsFaceCard. simpl.
  split; [|split; [|split]].
  - repeat case_bool_decide; subst; done.
  - intros Hs. enum Hs; reflexivity.
  - intros Hs.
    assert (s <> Spades /\ s <> Hearts /\ s <> Diamonds /\ s <> Clubs)
      as (? & ? & ? & ?).
    { repeat split; intros ->; apply Hs;
        apply (bool_decide_unpack _); vm_compute; exact I. }
    by rewrite !bool_decide_eq_false_2 by done.
  - split.
    + intros Hf. repeat case_bool_decide; subst; try discriminate;
        apply (bool_decide_unpack _); vm_compute; exact I.
    + intros Hr. enum Hr; reflexivity.
Qed.

Lemma Card_colour_witness :
  (Hearts ∈ suits
   /\ IsRed (NewCard Hearts Queen) = negb (IsBlack (NewCard Hearts Queen)))
  /\ ((card_Suit (NewCard 7 Ace) ∉ suits)
      /\ IsRed (NewCard 7 Ace) = false /\ IsBlack (NewCard 7 Ace) = false).
Proof.
  assert (Hs : Hearts ∈ suits)
    by (apply (bool_decide_unpack _); vm_compute; exact I).
  assert (H7 : card_Suit (NewCard 7 Ace) ∉ suits)
    by (apply (bool_decide_unpack _); vm_compute; exact I).
  split.
  - split; [exact Hs|].
    exact (proj1 (proj2 (Card_colour (NewCard Hearts Queen))) Hs).
  - split; [exact H7|].
    exact (proj1 (proj2 (proj2 (Card_colour (NewCard 7 Ace)))) H7).
Defined.

(** X17. The display methods are total: a suit or rank outside the named
    constants gets the sentinel, "Unknown" as name and "?" as symbol, and
    no named constant does. *)
Theorem display_sentinels (s r : Z) :
  (Suit_String s = "Unknown" <-> s ∉ suits)
  /\ (Suit_Symbol s = "?" <-> s ∉ suits)
  /\ (Rank_String r = "Unknown" <-> r ∉ ranks)
  /\ (Rank_Symbol r = "?" <-> r ∉ ranks).
Proof.
  unfold Suit_String, Suit_Symbol, Rank_String, Rank_Symbol.
  split; [|split; [|split]].
  all: repeat case_decide; subst.
  all: split; [intros Heq; try discriminate Heq | intros Hnot].
  all: try (exfalso; apply Hnot; apply (bool_decide_unpack _); vm_compute;
            exact I).
  all: try reflexivity.
  all: intros Hin; enum Hin; congruence.
Qed.

Lemma standard_NewDeck (c : Card) : standard c <-> c ∈ cards NewDeck.
Proof.
  split.
  - destruct c as [s r]. intros [Hs Hr]. simpl in *.
    enum Hs; enum Hr; apply (bool_decide_unpack _); vm_compute; exact I.
  - intros Hc. enum Hc; split; apply (bool_decide_unpack _); vm_compute;
      exact I.
Qed.

(** X18. The display strings tell the standard cards apart: two cards with
    one of the four suits and one of the thirteen ranks that have the same
    [String()], or the same [ShortString()], are the same card.  Outside
    the standard cards this fails: all unknown ranks of a suit share one
    string. *)
Theorem display_injective :
  (forall c1 c2 : Card,
     standard c1 -> standard c2 ->
     Card_String c1 = Card_String c2 -> c1 = c2)
  /\ (forall c1 c2 : Card,
        standard c1 -> standard c2 ->
        Card_ShortString c1 = Card_ShortString c2 -> c1 = c2)
  /\ Card_String (NewCard Hearts 0) = Card_String (NewCard Hearts 14)
  /\ Card_ShortString (NewCard Hearts 0)
     = Card_ShortString (NewCard Hearts 14).
Proof.
  assert (Hall :
    Forall (fun c1 =>
      Forall (fun c2 =>
        (Card_String c1 = Card_String c2 -> c1 = c2)
        /\ (Card_ShortString c1 = Card_ShortString c2 -> c1 = c2))
        (cards NewDeck)) (cards NewDeck))
    by (apply (bool_decide_unpack _); vm_compute; exact I).
  split; [|split; [|split; reflexivity]].
  - intros c1 c2 H1%standard_NewDeck H2%standard_NewDeck.
    eapply Forall_forall in Hall; [|exact H1].
    eapply Forall_forall in Hall; [|exact H2]. apply Hall.
  - intros c1 c2 H1%standard_NewDeck H2%standard_NewDeck.
    eapply Forall_forall in Hall; [|exact H1].
    eapply Forall_forall in Hall; [|exact H2]. apply Hall.
Qed.

Lemma display_injective_witness :
  standard (NewCard Hearts Ten) /\ standard (NewCard Hearts Ten)
  /\ Card_ShortString (NewCard Hearts Ten)
     = Card_ShortString (NewCard Hearts Ten)
  /\ NewCard Hearts Ten = NewCard Hearts Ten.
Proof.
  assert (Hs : standard (NewCard Hearts Ten))
    by (split; apply (bool_decide_unpack _); vm_compute; exact I).
  split; [exact Hs|]. split; [exact Hs|]. split; [reflexivity|].
  exact (proj1 (proj2 display_injective) _ _ Hs Hs eq_refl).
Defined.

(** ** Sorting and shuffling together *)

Lemma StronglySorted_card_le_unique (l1 l2 : list Card) :
  StronglySorted card_le l1 -> StronglySorted card_le l2 -> l1 ≡ₚ l2 ->
  l1 = l2.
Proof. apply StronglySorted_unique. apply _. Qed.

(** X19. [Sort] brings a deck into the one sorted order of its cards: two
    decks are left with the same sequence exactly when they hold the same
    cards, however arranged; sorting a second time changes nothing. *)
Theorem Sort_canonical (d1 d2 : Deck) :
  exists cs1 cs2 : list Card,
    Sort d1 = Done (tt, {| cards := cs1 |})
    /\ Sort d2 = Done (tt, {| cards := cs2 |})
    /\ (cs1 = cs2 <-> cards d1 ≡ₚ cards d2)
    /\ Sort {| cards := cs1 |} = Done (tt, {| cards := cs1 |}).
Proof.
  destruct (Sort_Done d1) as (cs1 & Hrun1 & Hs1 & Hp1).
  destruct (Sort_Done d2) as (cs2 & Hrun2 & Hs2 & Hp2).
  exists cs1, cs2. split; [done|]. split; [done|]. split.
  - split.
    + intros ->. by rewrite <- Hp1, Hp2.
    + intros Hp. apply StronglySorted_card_le_unique; [done..|].
      by rewrite Hp1, Hp, Hp2.
  - destruct (Sort_Done {| cards := cs1 |}) as (cs3 & Hrun3 & Hs3 & Hp3).
    rewrite Hrun3. do 3 f_equal.
    by apply StronglySorted_card_le_unique.
Qed.

(** X20. Sorting undoes shuffling.  With a generator that keeps the range of
    [Intn], [Shuffle] or [ShuffleWithSeed] followed by [Sort] leaves the
    sequence that [Sort] alone leaves; a deck that was in order, such as a
    new deck, is back in its former order. *)
Theorem Sort_after_Shuffle `{RandSource} (now seed : Z) (d : Deck) :
  (forall (r : Rand) (n : Z), 0 < n -> 0 <= fst (Intn_next r n) < n) ->
  exists (d1 d2 d' : Deck),
    Shuffle now d = Done (tt, d1)
    /\ ShuffleWithSeed seed d = Done (tt, d2)
    /\ Sort d1 = Done (tt, d')
    /\ Sort d2 = Done (tt, d')
    /\ Sort d = Done (tt, d')
    /\ (Sorted card_le (cards d) -> d' = d).
Proof.
  intros Hrange.
  destruct (shuffle_loop_Done Hrange (rand_New now) d) as (cs1 & Hrun1 & Hp1).
  destruct (shuffle_loop_Done Hrange (rand_New seed) d) as (cs2 & Hrun2 & Hp2).
  destruct (Sort_Done d) as (cs' & Hrun & Hs & Hp).
  destruct (Sort_Done {| cards := cs1 |}) as (cs1' & Hrun1' & Hs1 & Hp1').
  destruct (Sort_Done {| cards := cs2 |}) as (cs2' & Hrun2' & Hs2 & Hp2').
  simpl in *.
  assert (cs1' = cs') as ->.
  { apply StronglySorted_card_le_unique; [done..|]. by rewrite Hp1', Hp1, Hp. }
  assert (cs2' = cs') as ->.
  { apply StronglySorted_card_le_unique; [done..|]. by rewrite Hp2', Hp2, Hp. }
  exists {| cards := cs1 |}, {| cards := cs2 |}, {| cards := cs' |}.
  rewrite Shuffle_loop, ShuffleWithSeed_loop.
  split; [done|]. split; [done|]. split; [done|]. split; [done|].
  split; [done|].
  intros Hd. destruct d as [cs]. simpl in *. f_equal.
  apply (Sorted_unique card_le); [by apply StronglySorted_Sorted|done..].
Qed.

Lemma Sort_after_Shuffle_witness :
  Sorted card_le (cards NewDeck)
  /\ exists d1 d2 : Deck,
       @Shuffle lcg 1700000000000000000 NewDeck = Done (tt, d1)
       /\ @ShuffleWithSeed lcg 42 NewDeck = Done (tt, d2)
       /\ Sort d1 = Done (tt, NewDeck)
       /\ Sort d2 = Done (tt, NewDeck).
Proof.
  assert (Hs : Sorted card_le (cards NewDeck))
    by (apply (bool_decide_unpack _); vm_compute; exact I).
  split; [exact Hs|].
  destruct (@Sort_after_Shuffle lcg 1700000000000000000 42 NewDeck lcg_range)
    as (d1 & d2 & d' & H1 & H2 & H3 & H4 & _ & Hsame).
  exists d1, d2. split; [exact H1|]. split; [exact H2|].
  rewrite <- (Hsame Hs). split; [exact H3|exact H4].
Defined.

(** X21. A deck of at most one card is left as it is by [Shuffle] and
    [ShuffleWithSeed], with any generator at all: the loop body does not
    run and nothing is drawn. *)
Theorem Shuffle_small `{RandSource} (now seed : Z) (d : Deck) :
  Size d <= 1 ->
  Shuffle now d = Done (tt, d) /\ ShuffleWithSeed seed d = Done (tt, d).
Proof.
  destruct d as [[|c [|c' cs]]]; unfold Size; simpl; intros Hsize.
  - split; reflexivity.
  - split; reflexivity.
  - rewrite !len_cons in Hsize. pose proof (len_nonneg cs). lia.
Qed.

Lemma Shuffle_small_witness :
  Size {| cards := [NewCard Hearts Ace] |} <= 1
  /\ @Shuffle lcg 7 {| cards := [NewCard Hearts Ace] |}
     = Done (tt, {| cards := [NewCard Hearts Ace] |})
  /\ @ShuffleWithSeed lcg 7 {| cards := [NewCard Hearts Ace] |}
     = Done (tt, {| cards := [NewCard Hearts Ace] |}).
Proof.
  assert (H1 : Size {| cards := [NewCard Hearts Ace] |} <= 1)
    by (vm_compute; discriminate).
  split; [exact H1|].
  exact (@Shuffle_small lcg 7 7 {| cards := [NewCard Hearts Ace] |} H1).
Defined.

(** ** Every order can come out of a shuffle *)

(** The loop entered at [i], when the cards behind [i] are already those of
    [target] and the cards up to [i] are those of [target] in some order:
    there are draws that finish with [target]. *)
Lemma shuffle_reach_from (i : nat) :
  forall (fuel : nat) (cs target : list Card),
  (i < fuel)%nat ->
  (i < length cs)%nat ->
  drop (S i) cs = drop (S i) target ->
  take (S i) cs ≡ₚ take (S i) target ->
  exists (draws : list Z) (v : Z * list Z),
    for_loop fuel
      (fun '(i, _) => ret (bool_decide (i > 0)))
      (fun '(i, r) =>
         let* (j, r') := lift (@rand_Intn replay r (i + 1)) in
         swap i j ;;
         ret (i - 1, r'))%go
      (Z.of_nat i, draws) {| cards := cs |}
    = Done (v, {| cards := target |}).
Proof.
  induction i as [|i IH]; intros fuel cs target Hf Hi Hdrop Hperm.
  - destruct fuel as [|fuel]; [lia|].
    destruct cs as [|c rest]; [simpl in Hi; lia|].
    destruct target as [|t rest'].
    { simpl in Hperm. by apply Permutation_nil_r in Hperm. }
    simpl in Hdrop, Hperm. rewrite !drop_0 in Hdrop. subst rest'.
    apply Permutation_length_1 in Hperm as ->.
    exists [], (0, []). reflexivity.
  - destruct fuel as [|fuel]; [lia|].
    assert (Hlen : (S i < length target)%nat).
    { apply Permutation_length in Hperm. rewrite !length_take in Hperm. lia. }
    destruct (lookup_lt_is_Some_2 target (S i) Hlen) as [t Ht].
    destruct (lookup_lt_is_Some_2 cs (S i) Hi) as [a Ha].
    assert (Hj : exists j : nat, cs !! j = Some t /\ (j < S (S i))%nat).
    { apply elem_of_take. rewrite Hperm. apply elem_of_take. eauto. }
    destruct Hj as (j & Hb & Hj).
    set (cs2 := <[j := a]> (<[S i := t]> cs)).
    assert (Hat : cs2 !! S i = Some t).
    { unfold cs2. destruct (decide (j = S i)) as [->|Hne].
      - rewrite list_lookup_insert_eq by (rewrite length_insert; lia).
        congruence.
      - rewrite list_lookup_insert_ne by done.
        by rewrite list_lookup_insert_eq by lia. }
    destruct (IH fuel cs2 target) as (ds & v & Hrun).
    + lia.
    + unfold cs2. rewrite !length_insert. lia.
    + rewrite (drop_S _ _ _ Hat), (drop_S _ _ _ Ht). f_equal.
      unfold cs2. by rewrite !drop_insert_lt by lia.
    + apply (Permutation_app_inv_r [t]).
      rewrite <- (take_S_r _ _ _ Hat), <- (take_S_r _ _ _ Ht), <- Hperm.
      unfold cs2. rewrite !take_insert_lt by lia.
      apply swap_Permutation; by rewrite lookup_take_lt by lia.
    + exists (Z.of_nat j :: ds), v.
      rewrite for_loop_S. cbn beta iota. go_steps.
      rewrite bool_decide_eq_true_2 by lia. go_steps.
      rewrite (bind_lift _ _ _ (Z.of_nat j, ds)).
      2:{ unfold rand_Intn. rewrite decide_False by lia. simpl.
          by rewrite Z.mod_small by lia. }
      cbn beta iota. go_steps.
      rewrite (bind_Done _ _ _ _ _ (swap_Done _ _ _ _ _ Ha Hb)). go_steps.
      replace (Z.of_nat (S i) - 1) with (Z.of_nat i) by lia.
      exact Hrun.
Qed.

Lemma replay_from_range (draws : list Z) (r : @Rand (replay_from draws))
    (n : Z) :
  0 < n -> 0 <= fst (@Intn_next (replay_from draws) r n) < n.
Proof. intros Hn. simpl. by apply Z.mod_pos_bound. Qed.

(** X22. The shuffle can leave the deck in every order: for every
    arrangement [target] of the cards of a deck there is a sequence of
    draws, each within the range [Intn] is asked for, under which [Shuffle]
    and [ShuffleWithSeed] leave exactly [target]. *)
Theorem Shuffle_reaches_every_order (d : Deck) (target : list Card) :
  target ≡ₚ cards d ->
  exists draws : list Z,
    (forall (r : @Rand (replay_from draws)) (n : Z),
       0 < n -> 0 <= fst (@Intn_next (replay_from draws) r n) < n)
    /\ (forall now : Z,
          @Shuffle (replay_from draws) now d
          = Done (tt, {| cards := target |}))
    /\ (forall seed : Z,
          @ShuffleWithSeed (replay_from draws) seed d
          = Done (tt, {| cards := target |})).
Proof.
  intros Hp. destruct d as [cs]. simpl in Hp.
  destruct cs as [|c cs].
  - apply Permutation_nil_r in Hp as ->. exists [].
    split; [apply replay_from_range|]. split; reflexivity.
  - destruct (shuffle_reach_from (length cs) (S (length (c :: cs)))
                (c :: cs) target) as (draws & v & Hrun).
    + simpl. lia.
    + simpl. lia.
    + apply Permutation_length in Hp.
      rewrite !drop_ge; [done|simpl in *; lia..].
    + apply Permutation_length in Hp as Hl.
      rewrite !take_ge; [done|simpl in *; lia..].
    + exists draws. split; [apply replay_from_range|].
      assert (Hloop : @shuffle_loop (replay_from draws) draws
                        {| cards := c :: cs |}
                      = Done (tt, {| cards := target |})).
      { unfold shuffle_loop. go_steps.
        replace (len (c :: cs) - 1) with (Z.of_nat (length cs))
          by (unfold len; simpl; lia).
        by rewrite (bind_Done _ _ _ _ _ Hrun). }
      split; intros; exact Hloop.
Qed.

Lemma Shuffle_reaches_every_order_witness :
  [NewCard Clubs King; NewCard Spades Ace; NewCard Hearts Ten]
  ≡ₚ cards {| cards := [NewCard Spades Ace; NewCard Hearts Ten;
                        NewCard Clubs King] |}
  /\ exists draws : list Z,
       @ShuffleWithSeed (replay_from draws) 42
         {| cards := [NewCard Spades Ace; NewCard Hearts Ten;
                      NewCard Clubs King] |}
       = Done (tt, {| cards := [NewCard Clubs King; NewCard Spades Ace;
                                NewCard Hearts Ten] |}).
Proof.
  assert (Hp : [NewCard Clubs King; NewCard Spades Ace; NewCard Hearts Ten]
               ≡ₚ cards {| cards := [NewCard Spades Ace; NewCard Hearts Ten;
                                     NewCard Clubs King] |}).
  { simpl. apply (Permutation_cons_append
                    [NewCard Spades Ace; NewCard Hearts Ten]). }
  split; [exact Hp|].
  destruct (Shuffle_reaches_every_order _ _ Hp) as (draws & _ & _ & Hrun).
  exists draws. exact (Hrun 42).
Defined.

(** ** Counting, again *)

Section CountingExact.
Variable key : Card -> Z.

(** The map built by the counting loop, key by key. *)
Lemma count_loop_exact (cs : list Card) (k : Z) :
  fold_left (fun counts card => incr (key card) counts) cs ∅ !! k
  = let n := count_matching (fun c => bool_decide (key c = k)) cs in
    if decide (n = 0%nat) then None else Some (Z.of_nat n).
Proof.
  pose proof (count_loop_lookup key cs ∅ k) as Hl.
  pose proof (count_loop_positive key cs ∅) as Hpos.
  rewrite lookup_empty in Hl. simpl in *.
  destruct (fold_left _ cs ∅ !! k) as [v|] eqn:E; simpl in Hl.
  - apply Hpos in E; [|intros ? ?; by rewrite lookup_empty].
    rewrite decide_False by lia. f_equal. lia.
  - by rewrite decide_True by lia.
Qed.

Lemma count_matching_0 (p : Card -> bool) (cs : list Card) :
  count_matching p cs = 0%nat <-> Forall (fun c => p c = false) cs.
Proof.
  induction cs as [|c cs IH]; simpl.
  - split; [constructor|done].
  - rewrite Forall_cons, <- IH. destruct (p c); split; try lia; try done.
Qed.

Lemma count_matching_Permutation (p : Card -> bool) (cs1 cs2 : list Card) :
  cs1 ≡ₚ cs2 -> count_matching p cs1 = count_matching p cs2.
Proof.
  induction 1 as [|c l1 l2 _ IH|c1 c2 l|l1 l2 l3 _ IH1 _ IH2]; simpl;
    [done|by rewrite IH|lia|congruence].
Qed.

Lemma count_loop_Permutation (cs1 cs2 : list Card) :
  cs1 ≡ₚ cs2 ->
  fold_left (fun counts card => incr (key card) counts) cs1 ∅
  = fold_left (fun counts card => incr (key card) counts) cs2 ∅.
Proof.
  intros Hp. apply map_eq. intros k. rewrite !count_loop_exact.
  by rewrite (count_matching_Permutation _ _ _ Hp).
Qed.

End CountingExact.

(** X23. A count map has a key only for what occurs: a suit (or rank) is a
    key of [CountBySuit] (or [CountByRank]) exactly when some card of the
    deck has it, its value is then the number of those cards, and reading a
    missing key as [0], as Go does, gives that number for every suit and
    rank. *)
Theorem counts_exact (d : Deck) (k : Z) :
  (CountBySuit d !! k = None
   <-> Forall (fun c => card_Suit c <> k) (cards d))
  /\ (CountByRank d !! k = None
      <-> Forall (fun c => card_Rank c <> k) (cards d))
  /\ default 0 (CountBySuit d !! k)
     = Z.of_nat
         (count_matching (fun c => bool_decide (card_Suit c = k)) (cards d))
  /\ default 0 (CountByRank d !! k)
     = Z.of_nat
         (count_matching (fun c => bool_decide (card_Rank c = k)) (cards d)).
Proof.
  unfold CountBySuit, CountByRank. rewrite !count_loop_exact. simpl.
  split; [|split; [|split]].
  - rewrite <- (Forall_iff (fun c => bool_decide (card_Suit c = k) = false))
      by (intros c; apply bool_decide_eq_false).
    rewrite <- count_matching_0. case_decide; split; done.
  - rewrite <- (Forall_iff (fun c => bool_decide (card_Rank c = k) = false))
      by (intros c; apply bool_decide_eq_false).
    rewrite <- count_matching_0. case_decide; split; done.
  - case_decide; simpl; lia.
  - case_decide; simpl; lia.
Qed.

(** X24. Reordering does not change what a deck holds: after [Sort], and
    after [ShuffleWithSeed] or [Shuffle] with a generator that keeps the
    range of [Intn], [CountBySuit], [CountByRank], [Size] and [Contains]
    give what they gave before. *)
Theorem reordering_keeps_contents `{RandSource} (now seed : Z) (d : Deck) :
  (forall (r : Rand) (n : Z), 0 < n -> 0 <= fst (Intn_next r n) < n) ->
  exists d1 d2 d3 : Deck,
    Sort d = Done (tt, d1)
    /\ ShuffleWithSeed seed d = Done (tt, d2)
    /\ Shuffle now d = Done (tt, d3)
    /\ Forall (fun d' =>
         CountBySuit d' = CountBySuit d
         /\ CountByRank d' = CountByRank d
         /\ Size d' = Size d
         /\ forall card : Card, Contains card d' = Contains card d)
         [d1; d2; d3].
Proof.
  intros Hrange.
  destruct (Sort_Done d) as (cs1 & Hrun1 & _ & Hp1).
  destruct (shuffle_loop_Done Hrange (rand_New seed) d) as (cs2 & Hrun2 & Hp2).
  destruct (shuffle_loop_Done Hrange (rand_New now) d) as (cs3 & Hrun3 & Hp3).
  exists {| cards := cs1 |}, {| cards := cs2 |}, {| cards := cs3 |}.
  rewrite Shuffle_loop, ShuffleWithSeed_loop.
  split; [done|]. split; [done|]. split; [done|].
  assert (Hall : forall cs' : list Card, cs' ≡ₚ cards d ->
    CountBySuit {| cards := cs' |} = CountBySuit d
    /\ CountByRank {| cards := cs' |} = CountByRank d
    /\ Size {| cards := cs' |} = Size d
    /\ forall card : Card,
         Contains card {| cards := cs' |} = Contains card d).
  { intros cs' Hp. split; [|split; [|split]].
    - by apply count_loop_Permutation.
    - by apply count_loop_Permutation.
    - unfold Size, len. simpl. by rewrite Hp.
    - intros card. apply eq_true_iff_eq. rewrite !Contains_true. simpl.
      by rewrite Hp. }
  repeat constructor; by apply Hall.
Qed.

Lemma reordering_keeps_contents_witness :
  exists d1 d2 d3 : Deck,
    Sort NewDeck = Done (tt, d1)
    /\ @ShuffleWithSeed lcg 42 NewDeck = Done (tt, d2)
    /\ @Shuffle lcg 1700000000000000000 NewDeck = Done (tt, d3)
    /\ CountBySuit d2 = CountBySuit NewDeck.
Proof.
  destruct (@reordering_keeps_contents lcg 1700000000000000000 42 NewDeck
              lcg_range) as (d1 & d2 & d3 & H1 & H2 & H3 & Hall).
  exists d1, d2, d3. split; [exact H1|]. split; [exact H2|].
  split; [exact H3|].
  exact (proj1 (Forall_inv (Forall_inv_tail Hall))).
Defined.

(** ** Filtering, again *)

Lemma filter_filter_andb (p q : Card -> bool) (cs : list Card) :
  List.filter q (List.filter p cs) = List.filter (fun c => p c && q c) cs.
Proof.
  induction cs as [|c cs IH]; simpl; [done|].
  destruct (p c); simpl; [|done]. destruct (q c); by rewrite IH.
Qed.

Lemma filter_negb_Permutation (p : Card -> bool) (cs : list Card) :
  List.filter p cs ++ List.filter (fun c => negb (p c)) cs ≡ₚ cs.
Proof.
  induction cs as [|c cs IH]; simpl; [done|].
  destruct (p c); simpl.
  - by rewrite IH.
  - by rewrite <- Permutation_middle, IH.
Qed.

Lemma filter_ext_Forall (p q : Card -> bool) (cs : list Card) :
  Forall (fun c => p c = q c) cs -> List.filter p cs = List.filter q cs.
Proof.
  induction 1 as [|c cs Hc _ IH]; simpl; [done|]. by rewrite Hc, IH.
Qed.

Lemma IsBlack_negb_IsRed (c : Card) :
  card_Suit c ∈ suits -> IsBlack c = negb (IsRed c).
Proof. destruct c as [s r]. simpl. intros Hs. enum Hs; reflexivity. Qed.

Lemma IsRed_not_IsBlack (c : Card) : IsRed c = true -> IsBlack c = false.
Proof.
  destruct c as [s r]. unfold IsRed, IsBlack. simpl.
  repeat case_bool_decide; subst; done.
Qed.

Lemma filter_disjoint_length (p q : Card -> bool) (cs : list Card) :
  (forall c, p c = true -> q c = false) ->
  (length (List.filter p cs) + length (List.filter q cs) <= length cs)%nat.
Proof.
  intros Hpq. induction cs as [|c cs IH]; simpl; [done|].
  destruct (p c) eqn:Ep.
  - rewrite (Hpq c Ep). simpl. lia.
  - destruct (q c); simpl; lia.
Qed.

(** X25. Filtering twice is filtering once by both predicates, in either
    order, and filtering again by the same predicate changes nothing. *)
Theorem Filter_Filter (p q : Card -> bool) (d : Deck) :
  exists d1 d2 d3 : Deck,
    Filter p d = Done (d1, d)
    /\ Filter q d1 = Done (d2, d1)
    /\ Filter (fun c => p c && q c) d = Done (d2, d)
    /\ Filter q d = Done (d3, d)
    /\ Filter p d3 = Done (d2, d3)
    /\ Filter p d1 = Done (d1, d1).
Proof.
  exists {| cards := List.filter p (cards d) |},
         {| cards := List.filter q (List.filter p (cards d)) |},
         {| cards := List.filter q (cards d) |}.
  rewrite !Filter_Done. simpl.
  split; [done|]. split; [done|].
  split; [by rewrite filter_filter_andb|]. split; [done|]. split.
  - do 3 f_equal. rewrite !filter_filter_andb.
    apply filter_ext_Forall, Forall_forall. intros c _. apply andb_comm.
  - do 3 f_equal. rewrite filter_filter_andb.
    apply filter_ext_Forall, Forall_forall. intros c _. by destruct (p c).
Qed.

(** X26. Filtering by [IsRed] and by [IsBlack] never gives the same card
    twice: the two sizes add up to at most the size of the deck, and to
    exactly the size, the two results together holding the cards of the
    deck, when every card has one of the four suits. *)
Theorem Filter_colours (d : Deck) :
  exists red black : Deck,
    Filter IsRed d = Done (red, d)
    /\ Filter IsBlack d = Done (black, d)
    /\ Size red + Size black <= Size d
    /\ (Forall (fun c => card_Suit c ∈ suits) (cards d) ->
        Size red + Size black = Size d
        /\ cards red ++ cards black ≡ₚ cards d).
Proof.
  exists {| cards := List.filter IsRed (cards d) |},
         {| cards := List.filter IsBlack (cards d) |}.
  rewrite !Filter_Done. split; [done|]. split; [done|].
  unfold Size, len. simpl. split.
  - pose proof (filter_disjoint_length IsRed IsBlack (cards d)
                  IsRed_not_IsBlack). lia.
  - intros Hstd.
    assert (Hb : List.filter IsBlack (cards d)
                 = List.filter (fun c => negb (IsRed c)) (cards d)).
    { apply filter_ext_Forall. eapply Forall_impl; [exact Hstd|].
      intros c. apply IsBlack_negb_IsRed. }
    rewrite Hb. pose proof (filter_negb_Permutation IsRed (cards d)) as Hp.
    split; [|done]. apply Permutation_length in Hp.
    rewrite length_app in Hp. lia.
Qed.

Lemma Filter_colours_witness :
  Forall (fun c => card_Suit c ∈ suits) (cards NewDeck)
  /\ exists red black : Deck,
       Filter IsRed NewDeck = Done (red, NewDeck)
       /\ Filter IsBlack NewDeck = Done (black, NewDeck)
       /\ Size red + Size black = Size NewDeck
       /\ cards red ++ cards black ≡ₚ cards NewDeck.
Proof.
  assert (Hstd : Forall (fun c => card_Suit c ∈ suits) (cards NewDeck))
    by (apply (bool_decide_unpack _); vm_compute; exact I).
  split; [exact Hstd|].
  destruct (Filter_colours NewDeck) as (red & black & Hr & Hb & _ & Hall).
  exists red, black. split; [exact Hr|]. split; [exact Hb|].
  exact (Hall Hstd).
Defined.

(** X27. Filtering by one suit, or by one rank, gives as many cards as
    [CountBySuit], or [CountByRank], counts for it, a missing key read as
    [0]. *)
Theorem Filter_size_is_count (d : Deck) (k : Z) :
  exists bySuit byRank : Deck,
    Filter (fun c => bool_decide (card_Suit c = k)) d = Done (bySuit, d)
    /\ Filter (fun c => bool_decide (card_Rank c = k)) d = Done (byRank, d)
    /\ Size bySuit = default 0 (CountBySuit d !! k)
    /\ Size byRank = default 0 (CountByRank d !! k).
Proof.
  eexists _, _. rewrite !Filter_Done. split; [done|]. split; [done|].
  unfold Size, len, CountBySuit, CountByRank. simpl.
  rewrite !length_filter_count, !count_loop_lookup, lookup_empty. simpl.
  split; lia.
Qed.

(** ** What never happens *)




(** X29. [AddCard] does not look for duplicates: the deck always gets one
    more copy of the card, contains it afterwards, and still contains every
    card it contained. *)
Theorem AddCard_keeps_duplicates (card : Card) (d : Deck) :
  exists d' : Deck,
    AddCard card d = Done (tt, d')
    /\ copies card (cards d') = S (copies card (cards d))
    /\ Contains card d' = true
    /\ (forall c : Card, Contains c d = true -> Contains c d' = true)
    /\ Size d' = Size d + 1.
Proof.
  destruct d as [cs]. exists {| cards := cs ++ [card] |}.
  split; [done|]. split; [|split; [|split]].
  - simpl. rewrite copies_app, copies_cons_same. unfold copies. simpl. lia.
  - apply Contains_true. simpl. apply elem_of_app. right. left.
  - intros c. rewrite !Contains_true. simpl. intros Hc.
    apply elem_of_app. by left.
  - unfold Size. simpl. by rewrite len_app.
Qed.

Lemma AddCard_keeps_duplicates_witness :
  exists d' : Deck,
    AddCard (NewCard Hearts Ace) NewDeck = Done (tt, d')
    /\ copies (NewCard Hearts Ace) (cards d') = 2%nat
    /\ Contains (NewCard Clubs King) NewDeck = true
    /\ Contains (NewCard Clubs King) d' = true.
Proof.
  destruct (AddCard_keeps_duplicates (NewCard Hearts Ace) NewDeck)
    as (d' & Hrun & Hcopies & _ & Hkeep & _).
  assert (Hk : Contains (NewCard Clubs King) NewDeck = true)
    by (vm_compute; reflexivity).
  exists d'. split; [exact Hrun|]. split; [exact Hcopies|].
  split; [exact Hk|]. exact (Hkeep (NewCard Clubs King) Hk).
Defined.

(** X30. [InsertCard card position] succeeds exactly when
    [0 <= position <= Size()].  Outside that range it returns the error
    "invalid position" and leaves the deck as it is. *)
Theorem InsertCard_error_iff (card : Card) (position : Z) (d : Deck) :
  exists (e : error) (d' : Deck),
    InsertCard card position d = Done (e, d')
    /\ (e = nil <-> 0 <= position <= Size d)
    /\ (e <> nil -> e = errors_New "invalid position" /\ d' = d).
Proof.
  destruct (decide (position < 0 \/ position > Size d)) as [Hbad|Hok].
  - eexists _, _. split; [by apply InsertCard_invalid|].
    split; [|done]. split; [discriminate|lia].
  - eexists _, _. split; [apply InsertCard_ok; lia|].
    split; [|done]. split; [lia|done].
Qed.

Lemma InsertCard_error_iff_witness :
  exists (e : error) (d' : Deck),
    InsertCard (NewCard Hearts Ace) 53 NewDeck = Done (e, d')
    /\ e <> nil
    /\ e = errors_New "invalid position" /\ d' = NewDeck.
Proof.
  destruct (InsertCard_error_iff (NewCard Hearts Ace) 53 NewDeck)
    as (e & d' & Hrun & Hiff & Herr).
  assert (He : e <> nil).
  { intros Hnil. apply Hiff in Hnil. vm_compute in Hnil.
    destruct Hnil as [_ Hle]. apply Hle. reflexivity. }
  exists e, d'. split; [exact Hrun|]. split; [exact He|]. exact (Herr He).
Defined.
